(** * zExplorer console application: the command-line parser

    A shallow embedding of [consoleapp/include/cmd/parser.inl]
    ([Parser::parse], [Parser::parse_command], [Parser::parse_long_argument],
    [Parser::parse_short_argument]) and of [Parser::get_global_command] from
    [consoleapp/include/cmd_parser.h], followed by the properties of the
    parser that the specification states.

    Conventions of the embedding:
    - a [std::string_view] is a [string] (a sequence of 8-bit characters);
    - a [std::span<std::string_view>] is a [list string], an iterator into it
      is its distance from [begin()], a natural number;
    - a routine taking [Iter& itarg] returns the new iterator next to its
      result (explicit state passing);
    - a [PosExpected<T>] is an [outcome]: a value, a positioned error, or
      [Stuck] when the C++ code leaves the function without returning either
      ([.value()] on an empty optional, an out-of-range [substr], reading
      [args[0]] of an empty span, a loop that never ends). *)

From Stdlib Require Import Ascii.
From stdpp Require Import base option list strings gmap.

(** ** [std::string_view] *)

Module sv.

Definition size (s : string) : nat := String.length s.

Fixpoint drop (n : nat) (s : string) : string :=
  match n, s with
  | O, _ => s
  | S n', String _ s' => drop n' s'
  | S _, EmptyString => EmptyString
  end.

Fixpoint take (n : nat) (s : string) : string :=
  match n, s with
  | O, _ => EmptyString
  | S n', String a s' => String a (take n' s')
  | S _, EmptyString => EmptyString
  end.

(** [s.starts_with(p)] *)
Fixpoint starts_with (s p : string) {struct p} : bool :=
  match p, s with
  | EmptyString, _ => true
  | String b p', String a s' => if decide (a = b) then starts_with s' p' else false
  | String _ _, EmptyString => false
  end.

(** [s.find(c)]: the index of the first [c], [None] for [npos]. *)
Fixpoint find (s : string) (c : Ascii.ascii) : option nat :=
  match s with
  | EmptyString => None
  | String a s' => if decide (a = c) then Some 0 else S <$> find s' c
  end.

(** [s.substr(pos, count)]: [count = None] stands for [npos], and for every
    count that reaches beyond the end of the view.  [None] as a result is
    the [std::out_of_range] exception thrown when [pos > size()]. *)
Definition substr (s : string) (pos : nat) (count : option nat) : option string :=
  if decide (pos ≤ size s)
  then Some (match count with
             | None => drop pos s
             | Some n => take n (drop pos s)
             end)
  else None.

(** [a - b] on [size_t], used as a count: when [b > a] the subtraction
    wraps around to a value larger than the size of any view, which
    [substr] clamps exactly like [npos]. *)
Definition count_sub (a b : nat) : option nat :=
  if decide (b ≤ a) then Some (a - b) else None.

End sv.

(** ** Errors and results ([namespace cmd::result]) *)

Module result.

(** [Error::Type] *)
Inductive Type_ := TArgument | TFlag | TCommand | TNone | TUnknown.

(** [Error::Code]: the codes [parser.inl] builds, and the two bound and
    validation codes left to the binder. *)
Inductive Code :=
| NoGlobalCommand | BadString | SyntaxError
| FlagWithValue | MissingValue | UnknownParameter | RequiredArgument
| InvalidValue | OutOfBound.

Record Error := mkError {
  argument : string;
  value : option string;
  type : Type_;
  code : Code;
}.

Record PositionnedError := mkPositionnedError {
  error : Error;
  position : nat;
}.

(** [Parameter = std::variant<Argument, Flag>], with [Argument{name, value}]
    and [Flag{name, occurrence}]. *)
Inductive Parameter_ :=
| Argument (name value : string)
| Flag (name : string) (occurrence : nat).

Record Command := mkCommand {
  name : string;
  parameters : list Parameter_;
}.

(** [Result]; its member [parameters], which the parser leaves empty, is
    left out. *)
Record Result := mkResult {
  program : string;
  command : Command;
}.

Global Instance Type_eq_dec : EqDecision Type_.
Proof. solve_decision. Defined.
Global Instance Code_eq_dec : EqDecision Code.
Proof. solve_decision. Defined.
Global Instance Parameter_eq_dec : EqDecision Parameter_.
Proof. solve_decision. Defined.

End result.

Import result.

(** [PosExpected<T>], with the third case for what C++ leaves undefined or
    throws past the parser. *)
Inductive outcome (A : Type) :=
| Ok (a : A)
| Fail (e : PositionnedError)
| Stuck.
Arguments Ok {A} a.
Arguments Fail {A} e.
Arguments Stuck {A}.

Definition obind {A B} (m : outcome A) (k : A → outcome B) : outcome B :=
  match m with
  | Ok a => k a
  | Fail e => Fail e
  | Stuck => Stuck
  end.

Notation "x ←! m ; k" := (obind m (λ x, k))
  (at level 20, m at level 100, k at level 200, right associativity,
   format "x  ←!  m ;  '/' k").
Notation "' p ←! m ; k" := (obind m (λ p, k))
  (at level 20, p pattern, m at level 100, k at level 200, right associativity,
   format "' p  ←!  m ;  '/' k").

(** [o.value()] on a [std::optional]: an empty one throws. *)
Definition value_of {A} (o : option A) : outcome A :=
  match o with
  | Some a => Ok a
  | None => Stuck
  end.

(** [make_unexpected(PositionnedError{.error = Error{...}, .position = pos})] *)
Definition unexpected {A} (arg : string) (val : option string)
    (ty : Type_) (c : Code) (pos : nat) : outcome A :=
  Fail (mkPositionnedError (mkError arg val ty c) pos).

(** [e.position += n] *)
Definition offset_by (n : nat) (e : PositionnedError) : PositionnedError :=
  mkPositionnedError (error e) (position e + n).

(** ** The grammar ([namespace cmd::config]) *)

Definition char32_t := N.

Module config.

(** [Common<CRTP>]: the fields the parser reads. *)
Record Common := mkCommon {
  longname : string;
  shortname : option char32_t;
}.

Record Flag := mkFlag {
  flag_common :> Common;
}.

(** [Argument]: [required] is the member [parse_command] tests. *)
Record Argument := mkArgument {
  argument_common :> Common;
  required : bool;
}.

Record Command := mkCommand {
  command_common :> Common;
  arguments : list Argument;
  flags : list Flag;
}.

End config.

Import config.

(** [class Parser]: the global command is a command held by value or the long
    name of a registered one. *)
Record Parser := mkParser {
  global_command : option (config.Command + string);
  commands : list config.Command;
}.

(** [std::find_if(first, last, pred)]: the element found, [None] for [last]. *)
Definition find_if {A} (P : A → Prop) `{∀ x, Decision (P x)} (l : list A) : option A :=
  snd <$> list_find P l.

(** [*it] for an iterator at distance [it] from [begin()]. *)
Definition deref (args : list string) (it : nat) : outcome string :=
  value_of (args !! it).

(** ** What the parser calls and the sources do not hold

    [utils::uni::utf8_char_length] and [utils::uni::codepoint] (utils.h), the
    binder [Parser::add_flag], [Parser::add_argument], [Parser::add_input]
    (it updates the [result::Command] it is given and may fail), and the
    element [begin()] of a [std::unordered_set] designates, which the standard
    library leaves to the implementation: it depends on the names inserted
    and on the names erased, in their order, so [unordered_begin] takes the
    names inserted, first to last, and the names whose erasure was tried,
    first to last.  The parser is embedded over any of them. *)
Class Collaborators := {
  utf8_char_length : string → option nat;
  codepoint : string → option char32_t;
  add_flag : result.Command → config.Flag → string → outcome result.Command;
  add_argument :
    result.Command → config.Argument → string → string → outcome result.Command;
  add_input : result.Command → config.Command → string → outcome result.Command;
  unordered_begin : list string → list string → string;
}.

Section parser.
Context `{Collaborators}.

(** [Parser::get_global_command] *)
Definition get_global_command (p : Parser) : option config.Command :=
  match global_command p with
  | None => None
  | Some (inl command) => Some command
  | Some (inr name) => find_if (λ command : config.Command, name = longname command) (commands p)
  end.

(** The lambda [long_finder] of [parse_long_argument]. *)
Definition long_finder (name : string) (param : Common) : Prop :=
  longname param = name.

(** The lambdas comparing [shortname] with a code point. *)
Definition short_finder (codepoint : char32_t) (param : Common) : Prop :=
  shortname param = Some codepoint.

#[global] Instance long_finder_dec name param : Decision (long_finder name param).
Proof. unfold long_finder. apply _. Defined.

#[global] Instance short_finder_dec cp param : Decision (short_finder cp param).
Proof. unfold short_finder. apply _. Defined.

(** The head of [parse_long_argument]: the [name] and the [value] of a token
    [--name] or [--name=value], split at the first ['=']. *)
Definition name_and_value (arg : string) : outcome (string * option string) :=
  match sv.find arg "="%char with
  | None =>
      name ←! value_of (sv.substr arg 2 None);
      Ok (name, None)
  | Some equal_pos =>
      value ←! value_of (sv.substr arg (equal_pos + 1) None);
      name ←! value_of (sv.substr arg 2 (sv.count_sub equal_pos 2));
      Ok (name, Some value)
  end.

(** [Parser::parse_long_argument]; the iterator is left where it was. *)
Definition parse_long_argument (args : list string) (itarg : nat)
    (command : config.Command) (result_command : result.Command)
    : nat * outcome result.Command :=
  (itarg,
   arg ←! deref args itarg;
   '(name, value) ←! name_and_value arg;
   match find_if (λ f : config.Flag, long_finder name f) (flags command) with
   | Some found_flag =>
       match value with
       | Some _ => unexpected name value TFlag FlagWithValue 0
       | None => add_flag result_command found_flag name
       end
   | None =>
       match find_if (λ a : config.Argument, long_finder name a) (arguments command) with
       | Some found_argument =>
           match value with
           | None => unexpected name value TArgument MissingValue 0
           | Some v => add_argument result_command found_argument name v
           end
       | None => unexpected name value TArgument UnknownParameter 0
       end
   end).

(** The loop of the "multi flags" branch of [parse_short_argument], from byte
    offset [iName].  Every turn needs one unit of [fuel]; [parse_short_argument]
    gives it [name.size()], enough whenever the decoded lengths are positive. *)
Fixpoint multi_flags (fuel : nat) (command : config.Command) (name : string)
    (iName : nat) (result_command : result.Command) : outcome result.Command :=
  if decide (iName < sv.size name) then
    match fuel with
    | O => Stuck
    | S fuel' =>
        rest ←! value_of (sv.substr name iName None);
        match utf8_char_length rest with
        | None => unexpected name None TFlag BadString 0
        | Some len =>
            char ←! value_of (sv.substr name iName (Some len));
            match codepoint char with
            | None => unexpected name None TFlag BadString 0
            | Some cp =>
                match find_if (λ f : config.Flag, short_finder cp f) (flags command) with
                | None => unexpected name None TFlag UnknownParameter 0
                | Some found_flag =>
                    rc ←! add_flag result_command found_flag name;
                    multi_flags fuel' command name (iName + len) rc
                end
            end
        end
    end
  else Ok result_command.

(** [Parser::parse_short_argument]; the iterator comes back advanced by one
    when the token names an argument. *)
Definition parse_short_argument (args : list string) (itarg : nat)
    (command : config.Command) (result_command : result.Command)
    : nat * outcome result.Command :=
  match (arg ←! deref args itarg;
         name ←! value_of (sv.substr arg 1 None);
         len ←! value_of (utf8_char_length name);
         Ok (name, len)) with
  | Fail e => (itarg, Fail e)
  | Stuck => (itarg, Stuck)
  | Ok (name, len) =>
      if decide (len < sv.size name) then
        (itarg, multi_flags (sv.size name) command name 0 result_command)
      else
        match codepoint name with
        | None => (itarg, unexpected name None TFlag BadString 0)
        | Some cp =>
            match find_if (λ f : config.Flag, short_finder cp f) (flags command) with
            | Some found_flag => (itarg, add_flag result_command found_flag name)
            | None =>
                match find_if (λ a : config.Argument, short_finder cp a)
                              (arguments command) with
                | Some found_argument =>
                    let itvalue := S itarg in
                    if decide (itvalue = length args) then
                      (itvalue, unexpected name None TArgument MissingValue 0)
                    else
                      (itvalue,
                       v ←! deref args itvalue;
                       add_argument result_command found_argument name v)
                | None => (itarg, unexpected name None TArgument UnknownParameter 0)
                end
            end
        end
  end.

(** The classification of one token in the loop of [parse_command]. *)
Definition parse_parameter (args : list string) (itarg : nat)
    (command : config.Command) (result_command : result.Command) (name : string)
    : nat * outcome result.Command :=
  if sv.starts_with name "--" then
    parse_long_argument args itarg command result_command
  else if sv.starts_with name "-" then
    parse_short_argument args itarg command result_command
  else
    (itarg, add_input result_command command name).

(** The [for] loop of [parse_command], from iterator [itarg].  Every turn
    needs one unit of [fuel]; [parse_command] gives it [args.size()]. *)
Fixpoint dispatch (fuel : nat) (args : list string) (command : config.Command)
    (itarg : nat) (result_command : result.Command) : outcome result.Command :=
  if decide (itarg = length args) then Ok result_command
  else
    match fuel with
    | O => Stuck
    | S fuel' =>
        name ←! deref args itarg;
        if sv.starts_with name "---" then
          unexpected name None TNone SyntaxError itarg
        else
          let '(itarg', parameter) :=
            parse_parameter args itarg command result_command name in
          match parameter with
          | Ok rc => dispatch fuel' args command (S itarg') rc
          | Fail e => Fail (offset_by itarg' e)
          | Stuck => Stuck
          end
    end.

(** The set [required_arguments] after the first loop of the post
    validation. *)
Definition required_arguments (command : config.Command) : gset string :=
  foldl (λ (acc : gset string) (argument : config.Argument),
           if required argument then acc ∪ {[ longname (argument : Common) ]} else acc)
        ∅ (arguments command).

(** The same set after the second loop erased the bound arguments. *)
Definition erase_bound (params : list Parameter_) (required : gset string)
    : gset string :=
  foldl (λ (acc : gset string) (param : Parameter_),
           match param with
           | result.Argument name _ =>
               if decide (name ∈ acc) then acc ∖ {[ name ]} else acc
           | result.Flag _ _ => acc
           end)
        required params.

(** The long names the first loop of the post validation inserts, in the
    order of [command.arguments]. *)
Definition inserted_names (command : config.Command) : list string :=
  omap (λ argument : config.Argument,
          if required argument then Some (longname (argument : Common)) else None)
       (arguments command).

(** The names the second loop looks up, and erases when found, in the order
    of [result_command.parameters]. *)
Definition looked_up_names (params : list Parameter_) : list string :=
  omap (λ param : Parameter_,
          match param with
          | result.Argument name _ => Some name
          | result.Flag _ _ => None
          end)
       params.

(** The post validation of [parse_command]. *)
Definition post_validation (command : config.Command)
    (result_command : result.Command) : outcome result.Command :=
  let remaining :=
    erase_bound (parameters result_command) (required_arguments command) in
  if decide (remaining = ∅) then Ok result_command
  else
    unexpected
      (unordered_begin (inserted_names command)
         (looked_up_names (parameters result_command)))
      None TArgument RequiredArgument 0.

(** [Parser::parse_command] *)
Definition parse_command (args : list string) (command : config.Command)
    : outcome result.Command :=
  let result_command := result.mkCommand (longname command) [] in
  rc ←! dispatch (length args) args command 0 result_command;
  post_validation command rc.

(** The command search of [Parser::parse]: the command that governs, if any,
    and the iterator where its tokens begin. *)
Definition find_command (p : Parser) (args : list string)
    : outcome (option config.Command * nat) :=
  let itarg := 1 in
  if decide (itarg = length args) then Ok (get_global_command p, itarg)
  else
    token ←! deref args itarg;
    if sv.starts_with token "-" then Ok (get_global_command p, itarg)
    else
      match utf8_char_length token with
      | None => unexpected "" None TNone BadString itarg
      | Some char_len =>
          found_cmd ←!
            (if decide (char_len ≤ sv.size token) then
               cp ←! value_of (codepoint token);
               Ok (find_if (λ c : config.Command, shortname c = Some cp) (commands p))
             else
               Ok (find_if (λ c : config.Command, longname c = token) (commands p)));
          match found_cmd with
          | Some command => Ok (Some command, S itarg)
          | None => Ok (get_global_command p, itarg)
          end
      end.

(** [Parser::parse] *)
Definition parse (p : Parser) (args : list string) : outcome Result :=
  program ←! value_of (args !! 0);
  '(current_command, itarg) ←! find_command p args;
  match current_command with
  | None => unexpected "" None TCommand NoGlobalCommand itarg
  | Some command =>
      match parse_command (drop itarg args) command with
      | Ok parsed_cmd => Ok (mkResult program parsed_cmd)
      | Fail e => Fail (offset_by itarg e)
      | Stuck => Stuck
      end
  end.

End parser.

(** ** The collaborators as the specification describes them *)

Module spec_model.

(** The length a UTF-8 lead byte announces. *)
Definition lead_length (b : N) : option nat :=
  if (b <? 128)%N then Some 1
  else if (b <? 192)%N then None
  else if (b <? 224)%N then Some 2
  else if (b <? 240)%N then Some 3
  else if (b <? 248)%N then Some 4
  else None.

(** The payload bits of a lead byte of a sequence of [len] bytes. *)
Definition lead_bits (len : nat) (b : N) : N :=
  match len with
  | 1 => b
  | 2 => (b - 192)%N
  | 3 => (b - 224)%N
  | _ => (b - 240)%N
  end.

(** [n] continuation bytes [10xxxxxx], accumulated six bits at a time. *)
Fixpoint continuation (n : nat) (s : string) (acc : N) : option N :=
  match n with
  | O => Some acc
  | S n' =>
      match s with
      | EmptyString => None
      | String a s' =>
          let b := N_of_ascii a in
          if ((128 <=? b) && (b <? 192))%N
          then continuation n' s' (acc * 64 + (b - 128))%N
          else None
      end
  end.

(** Modelled from the spec: [utils.h] is not among the sources.  The code
    point utility "decodes the byte length and codepoint value of the first
    character of a string slice" and both functions "fail (return empty) on
    malformed input at the start of [s]". *)
Definition decode_first (s : string) : option (nat * char32_t) :=
  match s with
  | EmptyString => None
  | String a s' =>
      let b := N_of_ascii a in
      len ← lead_length b;
      cp ← continuation (len - 1) s' (lead_bits len b);
      Some (len, cp)
  end.

(** Modelled from the spec: the binder "appends a [Parameter] to the
    in-progress [ResultCommand.parameters].  For repeated flags, increments an
    occurrence counter associated with that long name rather than appending
    duplicate entries". *)
Fixpoint count_flag (longname : string) (params : list Parameter_) : list Parameter_ :=
  match params with
  | [] => [result.Flag longname 1]
  | result.Flag n k :: params' =>
      if decide (n = longname) then result.Flag n (S k) :: params'
      else result.Flag n k :: count_flag longname params'
  | param :: params' => param :: count_flag longname params'
  end.

Definition push (rc : result.Command) (param : Parameter_) : result.Command :=
  result.mkCommand (name rc) (parameters rc ++ [param]).

(** Modelled from the spec: [parser.h] and the definitions of the binder and
    of the code point utility are not among the sources.  "For arguments, each
    occurrence appends a new [{name, value}] pair", under the long name of the
    registered argument, the one the post validation looks for; a positional
    input is "accepted as opaque positional data", recorded here as a value
    without a name.  The binder of the specification never fails.  The first
    element of the set is taken to be the first name inserted that was not
    erased. *)
#[global] Instance collaborators : Collaborators := {|
  utf8_char_length s := fst <$> decode_first s;
  codepoint s := snd <$> decode_first s;
  add_flag rc flag _ :=
    Ok (result.mkCommand (name rc) (count_flag (longname flag) (parameters rc)));
  add_argument rc argument _ value :=
    Ok (push rc (result.Argument (longname argument) value));
  add_input rc _ token := Ok (push rc (result.Argument "" token));
  unordered_begin inserted erased :=
    default "" (head (list_difference inserted erased));
|}.

End spec_model.

(** ** The vocabulary of the statements *)

Section reading.
Context `{Collaborators}.

(** The code points of [s], decoded one after the other from its start; no
    reading when a decode fails or yields no byte.  [n] bounds the number of
    code points. *)
Fixpoint codepoints_upto (n : nat) (s : string) : option (list char32_t) :=
  match s with
  | EmptyString => Some []
  | String _ _ =>
      match n with
      | O => None
      | S n' =>
          len ← utf8_char_length s;
          _ ← guard (0 < len);
          cp ← codepoint (sv.take len s);
          cps ← codepoints_upto n' (sv.drop len s);
          Some (cp :: cps)
      end
  end.

Definition codepoints (s : string) : option (list char32_t) :=
  codepoints_upto (sv.size s) s.

(** The registered flag a code point names, if any. *)
Definition flag_of (command : config.Command) (cp : char32_t) : option config.Flag :=
  find_if (λ f : config.Flag, short_finder cp f) (flags command).

(** Binding the flags [fs], first to last, for the token name [name]. *)
Fixpoint bind_flags (rc : result.Command) (fs : list config.Flag) (name : string)
    : outcome result.Command :=
  match fs with
  | [] => Ok rc
  | f :: fs' => rc' ←! add_flag rc f name; bind_flags rc' fs' name
  end.

(** [e] is an error some call of the binder returns. *)
Definition from_binder (e : PositionnedError) : Prop :=
  (∃ rc f name, add_flag rc f name = Fail e) ∨
  (∃ rc a name v, add_argument rc a name v = Fail e) ∨
  (∃ rc c token, add_input rc c token = Fail e).

(** Every error of the binder satisfies [P]. *)
Definition binder_errors (P : PositionnedError → Prop) : Prop :=
  ∀ e, from_binder e → P e.

(** [e] is an error the option routines build themselves: at position [0] of
    the token they scan, about a flag or an argument. *)
Definition local_error (e : PositionnedError) : Prop :=
  position e = 0 ∧ (type (error e) = TFlag ∨ type (error e) = TArgument).

(** The errors of the loop of [parse_command] over the slice [args]: a
    [SyntaxError] at the index of its token, or the error of an option
    routine or of the binder moved by the index [j] the iterator has when the
    routine returns.  That index is inside the slice, except for the
    [MissingValue] of a short option at the end of the slice, whose iterator
    has already been advanced to the missing value. *)
Inductive loop_error (args : list string) : PositionnedError → Prop :=
| syntax_error j token :
    args !! j = Some token →
    sv.starts_with token "---" = true →
    loop_error args (mkPositionnedError (mkError token None TNone SyntaxError) j)
| binder_error j e0 :
    from_binder e0 →
    j < length args →
    loop_error args (offset_by j e0)
| token_error j e0 :
    local_error e0 →
    j < length args ∨ (code (error e0) = MissingValue ∧ j = length args) →
    loop_error args (offset_by j e0).

(** The binder keeps the arguments bound so far. *)
Definition keeps_arguments (rc rc' : result.Command) : Prop :=
  ∀ n v, result.Argument n v ∈ parameters rc → result.Argument n v ∈ parameters rc'.

(** The contract of the binder on arguments that the specification words:
    a bound argument is recorded under the long name of the registered
    argument, and nothing bound before is lost. *)
Definition binder_records_arguments : Prop :=
  (∀ rc f name rc', add_flag rc f name = Ok rc' → keeps_arguments rc rc') ∧
  (∀ rc a name v rc', add_argument rc a name v = Ok rc' →
     keeps_arguments rc rc' ∧
     result.Argument (longname (a : Common)) v ∈ parameters rc') ∧
  (∀ rc c token rc', add_input rc c token = Ok rc' → keeps_arguments rc rc').

(** The token [--name] or [--name=value]. *)
Definition long_token (name : string) (value : option string) : string :=
  match value with
  | None => "--" +:+ name
  | Some v => "--" +:+ name +:+ "=" +:+ v
  end.

(** The token [-name]. *)
Definition short_token (name : string) : string := "-" +:+ name.

(** [a] is required on [command] and no argument bound in [rc] carries its
    long name. *)
Definition missing (command : config.Command) (rc : result.Command)
    (a : config.Argument) : Prop :=
  a ∈ arguments command ∧ required a = true ∧
  ∀ v, result.Argument (longname (a : Common)) v ∉ parameters rc.

(** [tokens] supply the argument [a] with the value [v] in the long form,
    [--name=v]. *)
Definition long_form (command : config.Command) (a : config.Argument)
    (v : string) (tokens : list string) : Prop :=
  tokens = [long_token (longname (a : Common)) (Some v)] ∧
  sv.find (longname (a : Common)) "="%char = None ∧
  a ∈ arguments command.

(** [tokens] supply the argument [a] with the value [v] in the short form,
    [-x v], where [x] is one code point that names no flag and [a] is the
    argument it names. *)
Definition short_form (command : config.Command) (a : config.Argument)
    (v : string) (tokens : list string) : Prop :=
  ∃ name cp,
    tokens = [short_token name; v] ∧
    sv.starts_with name "-" = false ∧
    codepoints name = Some [cp] ∧
    flag_of command cp = None ∧
    find_if (λ a : config.Argument, short_finder cp a) (arguments command) = Some a.

End reading.

(** ** A grammar to run the parser on *)

Module demo.
Import spec_model.

Definition flag (long : string) (short : N) : config.Flag :=
  mkFlag (mkCommon long (Some short)).

Definition global : config.Command :=
  config.mkCommand (mkCommon "global" None)
    [mkArgument (mkCommon "name" (Some 110%N)) true;
     mkArgument (mkCommon "output" (Some 111%N)) false]
    [flag "all" 97%N; flag "brief" 98%N; flag "color" 99%N; flag "verbose" 118%N].

Definition build : config.Command :=
  config.mkCommand (mkCommon "build" None) [] [flag "verbose" 118%N].

Definition status : config.Command :=
  config.mkCommand (mkCommon "status" (Some 115%N)) [] [].

(** [global] is the global command, [build] and [status] are registered. *)
Definition parser : Parser := mkParser (Some (inl global)) [build; status].

(** The same commands and no global command. *)
Definition parser_without_global : Parser := mkParser None [build; status].

Definition empty_result : result.Command := result.mkCommand "global" [].

(** The byte [0xFF], which starts no UTF-8 sequence. *)
Definition bad_byte : string := String (ascii_of_N 255) EmptyString.

End demo.

(** ** Registration ([class Parser], cmd_parser.h) *)

(** [Parser::add_command] *)
Definition add_command (p : Parser) (command : config.Command) : Parser :=
  mkParser (global_command p) (commands p ++ [command]).

(** [Parser::make_command]: [add_command(Command(longname))]; the command
    built from a long name alone has no short name, no argument and no flag,
    and is the last registered one. *)
Definition make_command (p : Parser) (longname : string) : Parser :=
  add_command p (config.mkCommand (mkCommon longname None) [] []).

(** [Parser::set_global_command] *)
Definition set_global_command (p : Parser) (command : config.Command) : Parser :=
  mkParser (Some (inl command)) (commands p).

(** ** Registration on a command ([struct Command], cmd_parser.h) *)

(** [Command::add_flag] *)
Definition Command_add_flag (c : config.Command) (flag : config.Flag)
    : config.Command :=
  config.mkCommand (command_common c) (arguments c) (flags c ++ [flag]).

(** [Command::add_argument] *)
Definition Command_add_argument (c : config.Command) (argument : config.Argument)
    : config.Command :=
  config.mkCommand (command_common c) (arguments c ++ [argument]) (flags c).

(** [Command::make_flag]: [add_flag(Flag(longname))]; the flag built from a
    long name alone has no short name. *)
Definition Command_make_flag (c : config.Command) (longname : string)
    : config.Command :=
  Command_add_flag c (mkFlag (mkCommon longname None)).

(** ** The errors [parser.inl] builds *)

(** One case for each [Error{...}] written in the four routines, with the
    members as they are set there. *)
Inductive built : Error → Prop :=
| built_bad_command :
    built (mkError "" None TNone BadString)
| built_no_global_command :
    built (mkError "" None TCommand NoGlobalCommand)
| built_syntax_error token :
    sv.starts_with token "---" = true →
    built (mkError token None TNone SyntaxError)
| built_flag_with_value name v :
    built (mkError name (Some v) TFlag FlagWithValue)
| built_missing_value name :
    built (mkError name None TArgument MissingValue)
| built_unknown_parameter name value :
    built (mkError name value TArgument UnknownParameter)
| built_bad_flag name :
    built (mkError name None TFlag BadString)
| built_unknown_flag name :
    built (mkError name None TFlag UnknownParameter)
| built_required_argument name :
    built (mkError name None TArgument RequiredArgument).

(** The result of a sub-slice seen from the slice it starts at index [n] of:
    [e.position += n] on an error. *)
Definition moved {A} (n : nat) (o : outcome A) : outcome A :=
  match o with
  | Fail e => Fail (offset_by n e)
  | other => other
  end.

Section decoding.
Context `{Collaborators}.

(** [reads name i cps j]: from byte offset [i] of [name], the decodes of the
    combined form succeed one after the other, yield the code points [cps]
    with positive lengths, and end at offset [j]. *)
Inductive reads (name : string) : nat → list char32_t → nat → Prop :=
| reads_nil i : reads name i [] i
| reads_cons i len cp cps j :
    i < sv.size name →
    utf8_char_length (sv.drop i name) = Some len →
    0 < len →
    codepoint (sv.take len (sv.drop i name)) = Some cp →
    reads name (i + len) cps j →
    reads name i (cp :: cps) j.

(** A decode of the combined form fails at offset [i] of [name]: the length
    of the code point, or the code point itself. *)
Definition decode_fails (name : string) (i : nat) : Prop :=
  utf8_char_length (sv.drop i name) = None ∨
  ∃ len, utf8_char_length (sv.drop i name) = Some len ∧
         codepoint (sv.take len (sv.drop i name)) = None.

(** [reaches args command i rc j rcj]: started at iterator [i] with the
    result [rc], the loop of [parse_command] stands at iterator [j] with the
    result [rcj] after some turns that all succeeded. *)
Inductive reaches (args : list string) (command : config.Command)
    : nat → result.Command → nat → result.Command → Prop :=
| reaches_here i rc : reaches args command i rc i rc
| reaches_turn i rc token i' rc' j rcj :
    args !! i = Some token →
    sv.starts_with token "---" = false →
    parse_parameter args i command rc token = (i', Ok rc') →
    reaches args command (S i') rc' j rcj →
    reaches args command i rc j rcj.

(** [raised args command i rc e]: the loop of [parse_command], started at
    iterator [i] with the result [rc], comes to a token at index [j] and
    fails there with [e]: a [SyntaxError] at [j], or the error [e0] of the
    routine of that token with [e0.position] added to the index [j'] the
    iterator has when the routine returns, [j] or [j + 1]. *)
Inductive raised (args : list string) (command : config.Command)
    (i : nat) (rc : result.Command) : PositionnedError → Prop :=
| raised_syntax j rcj token :
    reaches args command i rc j rcj →
    args !! j = Some token →
    sv.starts_with token "---" = true →
    raised args command i rc
      (mkPositionnedError (mkError token None TNone SyntaxError) j)
| raised_token j rcj token j' e0 :
    reaches args command i rc j rcj →
    args !! j = Some token →
    sv.starts_with token "---" = false →
    parse_parameter args j command rcj token = (j', Fail e0) →
    j' = j ∨ j' = S j →
    raised args command i rc
      (mkPositionnedError (error e0) (position e0 + j')).

(** [e] carries an error of the binder or one the parser builds. *)
Definition known (e : PositionnedError) : Prop :=
  (∃ e0, from_binder e0 ∧ error e = error e0) ∨ built (error e).

(** The short-option tokens of [args] have a name whose first code point has
    a decodable length. *)
Definition short_names_decode (args : list string) : Prop :=
  ∀ i token, args !! i = Some token →
    sv.starts_with token "-" = true →
    is_Some (utf8_char_length (sv.drop 1 token)).

(** The positional inputs [tokens] handed to the binder one after the
    other, an error of the binder being reported at the index of its token. *)
Fixpoint bind_inputs (command : config.Command) (tokens : list string)
    (rc : result.Command) : outcome result.Command :=
  match tokens with
  | [] => Ok rc
  | token :: tokens' =>
      rc' ←! moved 0 (add_input rc command token);
      moved 1 (bind_inputs command tokens' rc')
  end.

(** The binder returns: a result or an error. *)
Definition binder_returns : Prop :=
  (∀ rc f name, add_flag rc f name ≠ Stuck) ∧
  (∀ rc a name v, add_argument rc a name v ≠ Stuck) ∧
  (∀ rc c token, add_input rc c token ≠ Stuck).

(** The binder leaves the name of the command result as it is. *)
Definition binder_keeps_name : Prop :=
  (∀ rc f name rc', add_flag rc f name = Ok rc' → result.name rc' = result.name rc) ∧
  (∀ rc a name v rc', add_argument rc a name v = Ok rc' →
     result.name rc' = result.name rc) ∧
  (∀ rc c token rc', add_input rc c token = Ok rc' → result.name rc' = result.name rc).

End decoding.

(** ** The program name *)

Section program.
Context `{Collaborators}.

(** C9. Whenever [parse] succeeds on an argument vector, the [program] field
    of the result is [args[0]], verbatim. *)
Theorem parse_program_is_first_argument (p : Parser) (args : list string) (r : Result) :
  parse p args = Ok r → args !! 0 = Some (program r).
Proof.
  unfold parse. destruct (args !! 0) as [prog|]; simpl; [|done].
  destruct (find_command p args) as [[[command|] itarg]| |]; simpl; try done.
  destruct (parse_command _ _); simpl; try done.
  by intros [= <-].
Qed.

(** C10. [parse] reads [args[0]] before it looks at the length of the vector:
    on the empty vector it returns neither a result nor an error, so every
    result and every error of [parse] comes from a non-empty vector. *)
Theorem parse_needs_program_name (p : Parser) :
  parse p [] = Stuck ∧
  (∀ args r, parse p args = Ok r → args ≠ []) ∧
  (∀ args e, parse p args = Fail e → args ≠ []).
Proof.
  split; [done|]. split; intros [|a args] x; done.
Qed.

End program.

(** A run of C9 on the demo grammar. *)
Lemma parse_program_is_first_argument_witness :
  ∃ r, parse demo.parser ["prog"; "-v"; "--name=x"] = Ok r ∧
       ["prog"; "-v"; "--name=x"] !! 0 = Some (program r).
Proof.
  eexists. split; [vm_compute; reflexivity|].
  apply (parse_program_is_first_argument demo.parser). vm_compute. reflexivity.
Defined.

(** ** Views: the facts about [std::string_view] the proofs use *)

Module sv_facts.

Lemma append_cons a s t : String a s +:+ t = String a (s +:+ t).
Proof. reflexivity. Qed.

Lemma append_empty_l t : EmptyString +:+ t = t.
Proof. reflexivity. Qed.

Lemma append_assoc s t u : (s +:+ t) +:+ u = s +:+ t +:+ u.
Proof. induction s as [|a s IH]; [done|]. by rewrite !append_cons, IH. Qed.

Lemma drop_0 s : sv.drop 0 s = s.
Proof. by destruct s. Qed.

Lemma drop_empty n : sv.drop n EmptyString = EmptyString.
Proof. by destruct n. Qed.

Lemma take_empty n : sv.take n EmptyString = EmptyString.
Proof. by destruct n. Qed.

Lemma size_app s t : sv.size (s +:+ t) = sv.size s + sv.size t.
Proof.
  induction s as [|a s IH]; [done|].
  rewrite append_cons. unfold sv.size in *. simpl. by rewrite IH.
Qed.

Lemma drop_app s t : sv.drop (sv.size s) (s +:+ t) = t.
Proof. induction s as [|a s IH]; [apply drop_0|]. by rewrite append_cons. Qed.

Lemma take_app s t : sv.take (sv.size s) (s +:+ t) = s.
Proof.
  induction s as [|a s IH]; [by destruct t|].
  rewrite append_cons. unfold sv.size in *. simpl. by rewrite IH.
Qed.

Lemma drop_drop n m s : sv.drop n (sv.drop m s) = sv.drop (m + n) s.
Proof.
  revert s. induction m as [|m IH]; intros s; [by rewrite drop_0|].
  destruct s as [|a s]; simpl; [by rewrite drop_empty|]. apply IH.
Qed.

Lemma size_drop n s : sv.size (sv.drop n s) = sv.size s - n.
Proof.
  revert s. induction n as [|n IH]; intros s; [rewrite drop_0; lia|].
  destruct s as [|a s]; simpl; [done|]. rewrite IH. unfold sv.size. simpl. lia.
Qed.

Lemma size_0 s : sv.size s = 0 → s = EmptyString.
Proof. by destruct s. Qed.

Lemma drop_all n s : sv.size s ≤ n → sv.drop n s = EmptyString.
Proof.
  intros Hn. apply size_0. rewrite size_drop. lia.
Qed.

(** The first occurrence of [c] in [s +:+ t] when [s] has none. *)

(** The first occurrence of [c] in [s +:+ t] when [s] has none. *)
Lemma find_app c s t :
  sv.find s c = None → sv.find (s +:+ t) c = (λ i, sv.size s + i) <$> sv.find t c.
Proof.
  induction s as [|a s IH]; intros Hs.
  - rewrite append_empty_l. destruct (sv.find t c); reflexivity.
  - rewrite append_cons. simpl in *. destruct (decide (a = c)); [done|].
    destruct (sv.find s c) eqn:E; [done|]. rewrite IH by done.
    destruct (sv.find t c); reflexivity.
Qed.

Lemma starts_with_app p t : sv.starts_with (p +:+ t) p = true.
Proof.
  induction p as [|a p IH]; [reflexivity|].
  rewrite append_cons. simpl. by rewrite decide_True.
Qed.

Lemma substr_from s n : n ≤ sv.size s → sv.substr s n None = Some (sv.drop n s).
Proof. intros Hn. unfold sv.substr. by rewrite decide_True. Qed.

Lemma substr_upto s n len :
  n ≤ sv.size s → sv.substr s n (Some len) = Some (sv.take len (sv.drop n s)).
Proof. intros Hn. unfold sv.substr. by rewrite decide_True. Qed.

End sv_facts.

(** ** [find_if] *)

Section find_if.
Context {A : Type} (P : A → Prop) `{∀ x, Decision (P x)}.

Lemma find_if_Some (l : list A) (x : A) : find_if P l = Some x → x ∈ l ∧ P x.
Proof.
  unfold find_if. destruct (list_find P l) as [[i y]|] eqn:E; [|done].
  intros [= <-]. apply list_find_Some in E as (Hi & HP & _).
  split; [by eapply list_elem_of_lookup_2|done].
Qed.

Lemma find_if_None (l : list A) : find_if P l = None ↔ ∀ x, x ∈ l → ¬ P x.
Proof.
  unfold find_if. rewrite fmap_None, list_find_None, Forall_forall. done.
Qed.

Lemma find_if_is_Some (l : list A) (x : A) : x ∈ l → P x → is_Some (find_if P l).
Proof.
  intros Hx HP. destruct (find_if P l) eqn:E; [done|].
  rewrite find_if_None in E. by destruct (E x).
Qed.

End find_if.

(** ** Long options *)

Section long_options.
Context `{Collaborators}.
Import sv_facts.

Lemma name_and_value_long_token (nm : string) (v : option string) :
  sv.find nm "="%char = None → name_and_value (long_token nm v) = Ok (nm, v).
Proof.
  intros Hnm. unfold name_and_value, long_token. destruct v as [x|].
  - assert (sv.find ("--" +:+ nm +:+ "=" +:+ x) "="%char = Some (2 + sv.size nm)) as ->.
    { rewrite (find_app _ "--") by done. rewrite (find_app _ nm) by done.
      simpl. f_equal. unfold sv.size. simpl. lia. }
    assert (sv.size ("--" +:+ nm +:+ "=" +:+ x) = 2 + sv.size nm + 1 + sv.size x) as Hsize.
    { rewrite !size_app. unfold sv.size. simpl. lia. }
    rewrite substr_from by lia. simpl. rewrite !append_empty_l.
    rewrite Nat.sub_0_r, take_app.
    replace (sv.size nm + 1) with (sv.size (nm +:+ "=")) by (by rewrite size_app).
    by rewrite <-(append_assoc nm "=" x), drop_app.
  - assert (sv.find ("--" +:+ nm) "="%char = None) as ->.
    { rewrite (find_app _ "--") by done. by rewrite Hnm. }
    rewrite substr_from by (rewrite size_app; unfold sv.size; simpl; lia).
    simpl. by rewrite append_empty_l.
Qed.

Lemma long_token_starts_with (nm : string) (v : option string) :
  sv.starts_with (long_token nm v) "--" = true.
Proof. destruct v; apply starts_with_app. Qed.

(** Every token that starts with two dashes reads [--name] or
    [--name=value], with a name free of ['=']. *)
Lemma long_token_exists (token : string) :
  sv.starts_with token "--" = true →
  ∃ nm v, token = long_token nm v ∧ sv.find nm "="%char = None.
Proof.
  destruct token as [|a [|b body]]; simpl; try done.
  { by destruct (decide _). }
  destruct (decide (a = "-"%char)) as [->|]; [|done].
  destruct (decide (b = "-"%char)) as [->|]; [|done]. intros _.
  assert (∃ nm v, body = match v with
                         | None => nm
                         | Some x => nm +:+ "=" +:+ x
                         end ∧ sv.find nm "="%char = None) as (nm & v & -> & Hnm).
  { induction body as [|c body (nm & v & Hbody & Hnm)].
    - by exists EmptyString, None.
    - destruct (decide (c = "="%char)) as [->|Hc].
      + by exists EmptyString, (Some body).
      + exists (String c nm), v. split; [rewrite Hbody; by destruct v|].
        simpl. rewrite decide_False by done. by rewrite Hnm. }
  exists nm, v. split; [|done]. by destruct v.
Qed.

(** C2. A long-option token [--name] or [--name=value] is resolved against
    the flags first and the arguments second, by equality of long names:
    a flag given a value fails [FlagWithValue]; a flag without a value is
    bound once; an argument without a value fails [MissingValue]; an argument
    with a value is bound to it; a name that is neither fails
    [UnknownParameter]. *)
Theorem parse_long_argument_outcomes (args : list string) (itarg : nat)
    (command : config.Command) (rc : result.Command)
    (nm : string) (v : option string) :
  args !! itarg = Some (long_token nm v) →
  sv.find nm "="%char = None →
  let is_flag := ∃ f : config.Flag, f ∈ flags command ∧ longname f = nm in
  let is_argument := ∃ a : config.Argument, a ∈ arguments command ∧ longname a = nm in
  (is_flag → ∀ x, v = Some x →
     parse_long_argument args itarg command rc
     = (itarg, unexpected nm (Some x) TFlag FlagWithValue 0)) ∧
  (∀ f, find_if (λ f : config.Flag, longname f = nm) (flags command) = Some f →
     v = None →
     parse_long_argument args itarg command rc = (itarg, add_flag rc f nm)) ∧
  (¬ is_flag → is_argument → v = None →
     parse_long_argument args itarg command rc
     = (itarg, unexpected nm None TArgument MissingValue 0)) ∧
  (¬ is_flag →
   ∀ a, find_if (λ a : config.Argument, longname a = nm) (arguments command) = Some a →
   ∀ x, v = Some x →
     parse_long_argument args itarg command rc = (itarg, add_argument rc a nm x)) ∧
  (¬ is_flag → ¬ is_argument →
     parse_long_argument args itarg command rc
     = (itarg, unexpected nm v TArgument UnknownParameter 0)).
Proof.
  intros Harg Hnm is_flag is_argument.
  unfold parse_long_argument, deref. rewrite Harg. simpl.
  rewrite name_and_value_long_token by done. simpl.
  assert (Hflag : ¬ is_flag →
    find_if (λ f : config.Flag, long_finder nm f) (flags command) = None).
  { intros Hno. apply find_if_None. intros f Hf Hn. apply Hno. by exists f. }
  assert (Harg' : ¬ is_argument →
    find_if (λ a : config.Argument, long_finder nm a) (arguments command) = None).
  { intros Hno. apply find_if_None. intros a Ha Hn. apply Hno. by exists a. }
  repeat split.
  - intros (f & Hf & Hn) x ->.
    destruct (find_if_is_Some (λ f : config.Flag, long_finder nm f) _ f Hf Hn) as [f' ->].
    done.
  - intros f Hf ->. unfold long_finder. by rewrite Hf.
  - intros Hno (a & Ha & Hn) ->. rewrite Hflag by done.
    destruct (find_if_is_Some (λ a : config.Argument, long_finder nm a) _ a Ha Hn) as [a' ->].
    done.
  - intros Hno a Ha x ->. rewrite Hflag by done. unfold long_finder. by rewrite Ha.
  - intros Hno Hno'. by rewrite Hflag, Harg'.
Qed.

End long_options.

(** A run of C2 on the demo grammar: [--verbose] is bound as a flag. *)
Lemma parse_long_argument_outcomes_witness :
  ["--verbose"] !! 0 = Some (long_token "verbose" None) ∧
  sv.find "verbose" "="%char = None ∧
  parse_long_argument ["--verbose"] 0 demo.global demo.empty_result
  = (0, Ok (result.mkCommand "global" [result.Flag "verbose" 1])).
Proof.
  split; [reflexivity|]. split; [reflexivity|].
  destruct (parse_long_argument_outcomes ["--verbose"] 0 demo.global
              demo.empty_result "verbose" None) as (_ & Hflag & _);
    [reflexivity|reflexivity|].
  rewrite (Hflag (demo.flag "verbose" 118%N)); reflexivity.
Defined.

(** ** One turn of the loop of [parse_command] *)

Section dispatch_turn.
Context `{Collaborators}.

Lemma dispatch_end fuel args command rc :
  dispatch fuel args command (length args) rc = Ok rc.
Proof. destruct fuel; simpl; by rewrite decide_True. Qed.

Lemma dispatch_turn fuel args command itarg rc name :
  args !! itarg = Some name →
  dispatch (S fuel) args command itarg rc
  = if sv.starts_with name "---" then unexpected name None TNone SyntaxError itarg
    else match parse_parameter args itarg command rc name with
         | (itarg', Ok rc') => dispatch fuel args command (S itarg') rc'
         | (itarg', Fail e) => Fail (offset_by itarg' e)
         | (_, Stuck) => Stuck
         end.
Proof.
  intros Harg. pose proof (lookup_lt_Some _ _ _ Harg).
  cbn [dispatch]. rewrite decide_False by lia. unfold deref. rewrite Harg.
  cbn [value_of obind]. destruct (sv.starts_with name "---"); [done|].
  by destruct (parse_parameter args itarg command rc name) as [? [| |]].
Qed.

End dispatch_turn.

(** ** Short options *)

Section short_options.
Context `{Collaborators}.
Import sv_facts.

Lemma take_all n s : sv.size s ≤ n → sv.take n s = s.
Proof.
  revert s. induction n as [|n IH]; intros [|a s]; unfold sv.size; simpl; try done.
  - lia.
  - intros Hn. f_equal. apply IH. unfold sv.size. lia.
Qed.

Lemma short_token_name (name : string) :
  sv.substr (short_token name) 1 None = Some name.
Proof. done. Qed.

(** The first decode of a reading. *)
Lemma codepoints_upto_cons n s cp cps :
  codepoints_upto n s = Some (cp :: cps) →
  ∃ n' len, n = S n' ∧ utf8_char_length s = Some len ∧ 0 < len ∧ 0 < sv.size s ∧
            codepoint (sv.take len s) = Some cp ∧
            codepoints_upto n' (sv.drop len s) = Some cps.
Proof.
  destruct n as [|n'], s as [|a s]; try done.
  intros Hc. exists n'. cbn -[sv.take sv.drop] in Hc.
  destruct (utf8_char_length (String a s)) as [len|]; [|done]. exists len.
  cbn -[sv.take sv.drop] in Hc. case_guard; [|done].
  cbn -[sv.take sv.drop] in Hc.
  destruct (codepoint (sv.take len (String a s))) as [cp'|]; [|done].
  cbn -[sv.take sv.drop] in Hc.
  destruct (codepoints_upto n' (sv.drop len (String a s))) as [cps'|]; [|done].
  injection Hc as -> ->. unfold sv.size. simpl. repeat split; try done; lia.
Qed.

Lemma codepoints_upto_nil n s : codepoints_upto n s = Some [] → s = EmptyString.
Proof.
  destruct n as [|n'], s as [|a s]; try done.
  cbn -[sv.take sv.drop].
  destruct (utf8_char_length (String a s)) as [len|]; [|done].
  cbn -[sv.take sv.drop]. case_guard; [|done]. cbn -[sv.take sv.drop].
  destruct (codepoint _); [|done]. cbn -[sv.take sv.drop].
  by destruct (codepoints_upto _ _).
Qed.

(** A reading has at most as many code points as the view has bytes. *)
Lemma codepoints_upto_length n s cps :
  codepoints_upto n s = Some cps → length cps ≤ sv.size s.
Proof.
  revert n s. induction cps as [|cp cps IH]; intros n s Hc; [simpl; lia|].
  apply codepoints_upto_cons in Hc as (n' & len & -> & _ & Hlen & Hs & _ & Hc).
  apply IH in Hc. rewrite size_drop in Hc. simpl. lia.
Qed.

(** The loop of the combined form follows the reading of the name from
    offset [iName] on: it binds the flags the code points name, first to last,
    and stops at the first code point that names none. *)
Lemma multi_flags_reading (command : config.Command) (name : string) :
  ∀ cps fuel n iName rc,
    codepoints_upto n (sv.drop iName name) = Some cps →
    length cps ≤ fuel →
    (∀ fs, mapM (flag_of command) cps = Some fs →
       multi_flags fuel command name iName rc = bind_flags rc fs name) ∧
    (∀ pre cp post fs rc',
       cps = pre ++ cp :: post →
       mapM (flag_of command) pre = Some fs →
       flag_of command cp = None →
       bind_flags rc fs name = Ok rc' →
       multi_flags fuel command name iName rc
       = unexpected name None TFlag UnknownParameter 0).
Proof.
  induction cps as [|c cps IH]; intros fuel n iName rc Hc Hfuel.
  - apply codepoints_upto_nil in Hc.
    assert (¬ iName < sv.size name) as Hend.
    { intros Hlt. pose proof (size_drop iName name) as Hs. rewrite Hc in Hs.
      unfold sv.size in Hs at 1. simpl in Hs. lia. }
    split.
    + intros fs [= <-]. destruct fuel; simpl; by rewrite decide_False.
    + intros [|??] ??????; done.
  - apply codepoints_upto_cons in Hc as (n' & len & -> & Hlen & Hpos & Hs & Hcp & Hc).
    rewrite size_drop in Hs. rewrite drop_drop in Hc.
    destruct fuel as [|fuel]; [simpl in Hfuel; lia|].
    assert (Hstep : ∀ rc0, multi_flags (S fuel) command name iName rc0
      = match flag_of command c with
        | None => unexpected name None TFlag UnknownParameter 0
        | Some f => rc1 ←! add_flag rc0 f name;
                    multi_flags fuel command name (iName + len) rc1
        end).
    { intros rc0. simpl. rewrite decide_True by lia.
      rewrite substr_from by lia. simpl. rewrite Hlen.
      rewrite substr_upto by lia. simpl. by rewrite Hcp. }
    split.
    + intros fs Hfs. rewrite Hstep. simpl in Hfs.
      destruct (flag_of command c) as [f|]; [|done]. simpl in Hfs.
      destruct (mapM (flag_of command) cps) as [fs'|] eqn:Hfs'; [|done].
      injection Hfs as <-. simpl.
      destruct (add_flag rc f name) as [rc1| |]; simpl; try done.
      apply (IH fuel n' (iName + len) rc1); [done|simpl in Hfuel; lia|done].
    + intros pre cp post fs rc' Heq Hpre Hnone Hbind. rewrite Hstep.
      destruct pre as [|c' pre]; simpl in Heq.
      * injection Heq as <- <-. by rewrite Hnone.
      * injection Heq as <- ->. simpl in Hpre. destruct (flag_of command c) as [f|]; [|done]. simpl in Hpre.
        destruct (mapM (flag_of command) pre) as [fs'|] eqn:Hfs'; [|done].
        injection Hpre as <-. simpl in Hbind.
        destruct (add_flag rc f name) as [rc1| |]; simpl in *; try done.
        eapply (IH fuel n' (iName + len) rc1); [done|simpl in Hfuel; lia|..]; done.
Qed.

(** The loop of the combined form needs no more fuel than bytes are left,
    when every decoded length is positive. *)
Lemma multi_flags_fuel fuel fuel' command name iName rc :
  (∀ s len, utf8_char_length s = Some len → 0 < len) →
  sv.size name - iName ≤ fuel → sv.size name - iName ≤ fuel' →
  multi_flags fuel command name iName rc = multi_flags fuel' command name iName rc.
Proof.
  intros Hpos. revert fuel' iName rc.
  induction fuel as [|fuel IH]; intros fuel' iName rc Hf Hf'.
  { destruct fuel'; simpl; by rewrite !decide_False by lia. }
  destruct fuel' as [|fuel'].
  { simpl. by rewrite !decide_False by lia. }
  simpl. destruct (decide _); [|done].
  destruct (sv.substr name iName None) as [rest|]; [|done]. cbn [value_of obind].
  destruct (utf8_char_length rest) as [len|] eqn:Hlen; [|done].
  apply Hpos in Hlen.
  destruct (sv.substr name iName (Some len)) as [char|]; [|done].
  cbn [value_of obind].
  destruct (codepoint char) as [cp|]; [|done].
  destruct (find_if _ _) as [f|]; [|done].
  destruct (add_flag rc f name) as [rc'| |]; cbn [obind]; [|done..].
  apply IH; lia.
Qed.
(** A token [-name] whose name does not start with a dash is a short option
    for the loop of [parse_command]. *)
Lemma short_token_class (name : string) :
  sv.starts_with name "-" = false →
  sv.starts_with (short_token name) "---" = false ∧
  sv.starts_with (short_token name) "--" = false ∧
  sv.starts_with (short_token name) "-" = true.
Proof.
  change (short_token name) with (String "-" name).
  destruct name as [|a s]; simpl; [done|].
  by destruct (decide (a = "-"%char)).
Qed.

(** The head of [parse_short_argument] on a token [-name]. *)
Lemma parse_short_argument_head args itarg name :
  args !! itarg = Some (short_token name) →
  (arg ←! deref args itarg;
   name ←! value_of (sv.substr arg 1 None);
   len ←! value_of (utf8_char_length name);
   Ok (name, len))
  = (len ←! value_of (utf8_char_length name); Ok (name, len)).
Proof.
  intros Harg. unfold deref. rewrite Harg. cbn [value_of obind].
  by rewrite short_token_name.
Qed.

(** The first decode of [parse_short_argument] is not guarded: when the
    length of the first code point of the name cannot be decoded, the routine
    returns neither a result nor an error. *)
Lemma parse_short_argument_first_decode args itarg command rc name :
  args !! itarg = Some (short_token name) →
  utf8_char_length name = None →
  parse_short_argument args itarg command rc = (itarg, Stuck).
Proof.
  intros Harg Hlen. unfold parse_short_argument.
  rewrite (parse_short_argument_head _ _ name) by done. by rewrite Hlen.
Qed.

(** C3. A combined short-option token, one dash followed by more than one
    code point: every code point is resolved as the short name of a flag and
    the flags are bound first to last, in the order of the token; the first
    code point that names no registered flag makes the token fail
    [UnknownParameter], and the error carries the whole name portion of the
    token. *)
Theorem parse_short_argument_combined (args : list string) (itarg : nat)
    (command : config.Command) (rc : result.Command)
    (name : string) (cps : list char32_t) :
  args !! itarg = Some (short_token name) →
  codepoints name = Some cps →
  1 < length cps →
  (∀ fs, mapM (flag_of command) cps = Some fs →
     parse_short_argument args itarg command rc = (itarg, bind_flags rc fs name)) ∧
  (∀ pre cp post fs rc',
     cps = pre ++ cp :: post →
     mapM (flag_of command) pre = Some fs →
     flag_of command cp = None →
     bind_flags rc fs name = Ok rc' →
     parse_short_argument args itarg command rc
     = (itarg, unexpected name None TFlag UnknownParameter 0)).
Proof.
  intros Harg Hcps Hmany. unfold codepoints in Hcps.
  destruct cps as [|c1 [|c2 cps]]; simpl in Hmany; try lia.
  pose proof Hcps as Hfirst.
  apply codepoints_upto_cons in Hfirst as (n' & len & _ & Hlen & _ & _ & _ & Hrest).
  apply codepoints_upto_cons in Hrest as (_ & _ & _ & _ & _ & Hsize & _).
  rewrite size_drop in Hsize.
  assert (parse_short_argument args itarg command rc
          = (itarg, multi_flags (sv.size name) command name 0 rc)) as ->.
  { unfold parse_short_argument.
    rewrite (parse_short_argument_head _ _ name) by done. rewrite Hlen. simpl.
    by rewrite decide_True by lia. }
  pose proof (codepoints_upto_length _ _ _ Hcps) as Hfuel.
  rewrite <-(drop_0 name) in Hcps at 2.
  destruct (multi_flags_reading command name _ _ _ 0 rc Hcps Hfuel) as [Hall Hfirst].
  split.
  - intros fs Hfs. by rewrite (Hall fs).
  - intros pre cp post fs rc' Heq Hpre Hnone Hbind.
    by rewrite (Hfirst pre cp post fs rc').
Qed.

(** The single form of [parse_short_argument], on a name of one code point
    that names no flag. *)
Lemma parse_short_argument_single_form args itarg command rc name cp :
  args !! itarg = Some (short_token name) →
  codepoints name = Some [cp] →
  flag_of command cp = None →
  parse_short_argument args itarg command rc
  = match find_if (λ a : config.Argument, short_finder cp a) (arguments command) with
    | Some a =>
        if decide (S itarg = length args)
        then (S itarg, unexpected name None TArgument MissingValue 0)
        else (S itarg, v ←! deref args (S itarg); add_argument rc a name v)
    | None => (itarg, unexpected name None TArgument UnknownParameter 0)
    end.
Proof.
  intros Harg Hcps Hflag. unfold codepoints in Hcps.
  apply codepoints_upto_cons in Hcps as (n' & len & _ & Hlen & _ & _ & Hcp & Hrest).
  apply codepoints_upto_nil in Hrest.
  assert (sv.size name ≤ len) as Hsize.
  { pose proof (size_drop len name) as Hs. rewrite Hrest in Hs.
    unfold sv.size in Hs at 1. simpl in Hs. lia. }
  rewrite take_all in Hcp by done.
  unfold parse_short_argument.
  rewrite (parse_short_argument_head _ _ name) by done. rewrite Hlen. simpl.
  rewrite decide_False by lia. rewrite Hcp. unfold flag_of in Hflag.
  by rewrite Hflag.
Qed.

(** The turn of the loop on such a token followed by a value [v]: the
    argument is bound to [v] and the loop goes on after [v]. *)
Lemma dispatch_short_value fuel args itarg command rc name cp a v :
  args !! itarg = Some (short_token name) →
  sv.starts_with name "-" = false →
  codepoints name = Some [cp] →
  flag_of command cp = None →
  find_if (λ a : config.Argument, short_finder cp a) (arguments command) = Some a →
  args !! S itarg = Some v →
  parse_short_argument args itarg command rc = (S itarg, add_argument rc a name v) ∧
  dispatch (S fuel) args command itarg rc
  = (rc' ←! match add_argument rc a name v with
            | Fail e => Fail (offset_by (S itarg) e)
            | other => other
            end;
     dispatch fuel args command (S (S itarg)) rc').
Proof.
  intros Harg Hdash Hcps Hflag Ha Hv.
  assert (parse_short_argument args itarg command rc
          = (S itarg, add_argument rc a name v)) as Hbound.
  { rewrite (parse_short_argument_single_form _ _ _ _ name cp), Ha by done.
    pose proof (lookup_lt_Some _ _ _ Hv).
    rewrite decide_False by lia. unfold deref. by rewrite Hv. }
  split; [done|].
  destruct (short_token_class name Hdash) as (H3 & H2 & H1).
  rewrite (dispatch_turn _ _ _ _ _ _ Harg), H3. unfold parse_parameter.
  rewrite H2, H1, Hbound. by destruct (add_argument rc a name v).
Qed.

(** C7. A short-option token of a single code point that names no flag: when
    the code point is the short name of an argument, the next token of the
    vector is taken as its value and the loop of [parse_command] goes on after
    that value; without a next token the parse fails [MissingValue]; when the
    code point names no argument either, it fails [UnknownParameter]. *)
Theorem parse_short_argument_single (args : list string) (itarg : nat)
    (command : config.Command) (rc : result.Command)
    (name : string) (cp : char32_t) :
  args !! itarg = Some (short_token name) →
  sv.starts_with name "-" = false →
  codepoints name = Some [cp] →
  flag_of command cp = None →
  let is_argument :=
    ∃ a : config.Argument, a ∈ arguments command ∧ shortname a = Some cp in
  (∀ a v,
     find_if (λ a : config.Argument, short_finder cp a) (arguments command) = Some a →
     args !! S itarg = Some v →
     parse_short_argument args itarg command rc
     = (S itarg, add_argument rc a name v) ∧
     ∀ fuel, dispatch (S fuel) args command itarg rc
             = (rc' ←! match add_argument rc a name v with
                       | Fail e => Fail (offset_by (S itarg) e)
                       | other => other
                       end;
                dispatch fuel args command (S (S itarg)) rc')) ∧
  (is_argument → S itarg = length args →
     parse_short_argument args itarg command rc
     = (S itarg, unexpected name None TArgument MissingValue 0)) ∧
  (¬ is_argument →
     parse_short_argument args itarg command rc
     = (itarg, unexpected name None TArgument UnknownParameter 0)).
Proof.
  intros Harg Hdash Hcps Hflag is_argument.
  pose proof (parse_short_argument_single_form args itarg command rc name cp
                Harg Hcps Hflag) as Hshort.
  split; [|split].
  - intros a v Ha Hv. split; [|intros fuel];
      by eapply dispatch_short_value.
  - intros (a & Ha & Hsn) Hend. rewrite Hshort.
    destruct (find_if_is_Some (λ a : config.Argument, short_finder cp a) _ a Ha Hsn)
      as [a' ->].
    by rewrite decide_True.
  - intros Hno. rewrite Hshort.
    assert (find_if (λ a : config.Argument, short_finder cp a) (arguments command)
            = None) as ->; [|done].
    apply find_if_None. intros a Ha Hsn. apply Hno. by exists a.
Qed.

End short_options.

(** Runs of C3 on the demo grammar: [-abc] binds [all], [brief] and [color]
    in that order; in [-axc] the code point [x] names no flag. *)
Lemma parse_short_argument_combined_witness :
  parse_short_argument ["-abc"] 0 demo.global demo.empty_result
  = (0, Ok (result.mkCommand "global"
              [result.Flag "all" 1; result.Flag "brief" 1; result.Flag "color" 1])) ∧
  parse_short_argument ["-axc"] 0 demo.global demo.empty_result
  = (0, unexpected "axc" None TFlag UnknownParameter 0).
Proof.
  split.
  - destruct (parse_short_argument_combined ["-abc"] 0 demo.global
                demo.empty_result "abc" [97; 98; 99]%N) as [Hall _];
      [reflexivity|reflexivity|simpl; lia|].
    rewrite (Hall [demo.flag "all" 97; demo.flag "brief" 98; demo.flag "color" 99]%N);
      reflexivity.
  - destruct (parse_short_argument_combined ["-axc"] 0 demo.global
                demo.empty_result "axc" [97; 120; 99]%N) as [_ Hfirst];
      [reflexivity|reflexivity|simpl; lia|].
    apply (Hfirst [97%N] 120%N [99%N] [demo.flag "all" 97%N]
             (result.mkCommand "global" [result.Flag "all" 1]));
      reflexivity.
Defined.

(** Runs of C7 on the demo grammar: [-n x] binds [name] to [x]; [-n] alone
    misses its value; [-z] names nothing. *)
Lemma parse_short_argument_single_witness :
  parse_short_argument ["-n"; "x"] 0 demo.global demo.empty_result
  = (1, Ok (result.mkCommand "global" [result.Argument "name" "x"])) ∧
  parse_short_argument ["-n"] 0 demo.global demo.empty_result
  = (1, unexpected "n" None TArgument MissingValue 0) ∧
  parse_short_argument ["-z"] 0 demo.global demo.empty_result
  = (0, unexpected "z" None TArgument UnknownParameter 0).
Proof.
  split; [|split].
  - destruct (parse_short_argument_single ["-n"; "x"] 0 demo.global
                demo.empty_result "n" 110%N) as (Hvalue & _ & _);
      [reflexivity..|].
    destruct (Hvalue (mkArgument (mkCommon "name" (Some 110%N)) true) "x")
      as [-> _]; reflexivity.
  - destruct (parse_short_argument_single ["-n"] 0 demo.global
                demo.empty_result "n" 110%N) as (_ & Hmissing & _);
      [reflexivity..|].
    apply Hmissing; [|reflexivity].
    exists (mkArgument (mkCommon "name" (Some 110%N)) true).
    split; [left|reflexivity].
  - destruct (parse_short_argument_single ["-z"] 0 demo.global
                demo.empty_result "z" 122%N) as (_ & _ & Hunknown);
      [reflexivity..|].
    apply Hunknown. intros (a & Ha & Hsn).
    apply list_elem_of_In in Ha. simpl in Ha.
    destruct Ha as [<-|[<-|[]]]; discriminate Hsn.
Defined.

(** C8. The decode that opens [parse_short_argument] is not guarded: on the
    token made of a dash and the byte [0xFF], whose name no decoder accepts,
    the routine returns no [BadString] error and no result, and neither does
    [parse]. *)
Theorem parse_short_argument_unguarded_decode :
  utf8_char_length demo.bad_byte = None ∧
  parse_short_argument [short_token demo.bad_byte] 0 demo.global demo.empty_result
  = (0, Stuck) ∧
  parse demo.parser ["prog"; short_token demo.bad_byte] = Stuck.
Proof. repeat split. Qed.

(** ** The command search *)

Section command_search.
Context `{Collaborators}.

(** Whenever the length of the first code point of the token does not exceed
    the size of the token, the commands are searched by short name, and by
    short name only. *)
Lemma find_command_by_short_name (p : Parser) (args : list string)
    (token : string) (char_len : nat) (cp : char32_t) :
  args !! 1 = Some token →
  sv.starts_with token "-" = false →
  utf8_char_length token = Some char_len →
  char_len ≤ sv.size token →
  codepoint token = Some cp →
  find_command p args
  = Ok match find_if (λ c : config.Command, shortname c = Some cp) (commands p) with
       | Some command => (Some command, 2)
       | None => (get_global_command p, 1)
       end.
Proof.
  intros Htoken Hdash Hlen Hle Hcp. pose proof (lookup_lt_Some _ _ _ Htoken).
  unfold find_command. rewrite decide_False by lia. unfold deref.
  rewrite Htoken. cbn [value_of obind]. rewrite Hdash, Hlen.
  rewrite decide_True by done. rewrite Hcp. cbn [value_of obind].
  by destruct (find_if _ _).
Qed.

(** Without a further token, or before a token that starts with a dash, the
    global command governs. *)
Lemma find_command_global (p : Parser) (args : list string) :
  length args = 1 ∨ (∃ token, args !! 1 = Some token ∧ sv.starts_with token "-" = true) →
  find_command p args = Ok (get_global_command p, 1).
Proof.
  intros [Hlen|(token & Htoken & Hdash)]; unfold find_command.
  - by rewrite decide_True.
  - pose proof (lookup_lt_Some _ _ _ Htoken). rewrite decide_False by lia.
    unfold deref. rewrite Htoken. cbn [value_of obind]. by rewrite Hdash.
Qed.

(** The command search returns the iterator [1] or [2], inside the vector. *)
Lemma find_command_iterator (p : Parser) (args : list string) current itarg :
  0 < length args →
  find_command p args = Ok (current, itarg) →
  1 ≤ itarg ≤ length args ∧ (itarg = 1 ∨ current ≠ None).
Proof.
  intros Hargs. unfold find_command.
  destruct (decide (1 = length args)); [intros [= <- <-]; split; [lia|by left]|].
  unfold deref. destruct (args !! 1) as [token|] eqn:Htoken; [|done].
  pose proof (lookup_lt_Some _ _ _ Htoken). cbn [value_of obind].
  destruct (sv.starts_with token "-"); [intros [= <- <-]; split; [lia|by left]|].
  destruct (utf8_char_length token) as [char_len|]; [|done].
  destruct (decide (char_len ≤ sv.size token)).
  - destruct (codepoint token); [|done]. cbn [value_of obind].
    destruct (find_if _ _); intros [= <- <-]; (split; [lia|]); [by right|by left].
  - cbn [obind].
    destruct (find_if _ _); intros [= <- <-]; (split; [lia|]); [by right|by left].
Qed.

(** The only error of the command search: [BadString] at the token. *)
Lemma find_command_Fail (p : Parser) (args : list string) e :
  find_command p args = Fail e →
  e = mkPositionnedError (mkError "" None TNone BadString) 1 ∧ 1 < length args.
Proof.
  unfold find_command.
  destruct (decide (1 = length args)); [done|].
  unfold deref. destruct (args !! 1) as [token|] eqn:Htoken; [|done].
  pose proof (lookup_lt_Some _ _ _ Htoken). cbn [value_of obind].
  destruct (sv.starts_with token "-"); [done|].
  destruct (utf8_char_length token) as [char_len|].
  - destruct (decide (char_len ≤ sv.size token)).
    + destruct (codepoint token); [|done]. cbn [value_of obind].
      by destruct (find_if _ _).
    + cbn [obind]. by destruct (find_if _ _).
  - by intros [= <-].
Qed.

End command_search.

(** C1. The command search takes the short-name branch whenever the length of
    the first code point is at most the size of the token ([<=] where the
    comment of the source and the specification mean equality): on the token
    [build], five bytes whose first code point takes one, the registered
    command of long name [build] is not looked up by long name, no command has
    the short name [b], and the global command governs with the token left
    unconsumed. *)
Theorem find_command_skips_long_name :
  utf8_char_length "build" = Some 1 ∧
  sv.size "build" = 5 ∧
  find_if (λ c : config.Command, longname c = "build") (commands demo.parser)
  = Some demo.build ∧
  find_command demo.parser ["prog"; "build"] = Ok (Some demo.global, 1).
Proof. repeat split. Qed.

(** ** Where the errors of [parse_command] come from *)

Section errors.
Context `{Collaborators}.

Lemma name_and_value_not_Fail (arg : string) e : name_and_value arg ≠ Fail e.
Proof.
  unfold name_and_value. destruct (sv.find arg "="%char) as [equal_pos|].
  - destruct (sv.substr arg (equal_pos + 1) None); [|done]. cbn [value_of obind].
    by destruct (sv.substr arg 2 (sv.count_sub equal_pos 2)).
  - by destruct (sv.substr arg 2 None).
Qed.

Lemma unexpected_local {A} name ty c e :
  ty = TFlag ∨ ty = TArgument →
  unexpected (A:=A) name None ty c 0 = Fail e → local_error e.
Proof. intros Hty [= <-]. by split. Qed.

Lemma add_flag_Fail rc f name e : add_flag rc f name = Fail e → from_binder e.
Proof. intros He. left. eauto. Qed.

Lemma add_argument_Fail rc a name v e :
  add_argument rc a name v = Fail e → from_binder e.
Proof. intros He. right. left. eauto. Qed.

Lemma add_input_Fail rc c token e : add_input rc c token = Fail e → from_binder e.
Proof. intros He. right. right. eauto. Qed.

Lemma parse_long_argument_Fail args i command rc i' e :
  parse_long_argument args i command rc = (i', Fail e) →
  i' = i ∧ (from_binder e ∨ local_error e).
Proof.
  unfold parse_long_argument. intros [= <- He]. split; [done|]. revert He.
  unfold deref. destruct (args !! i) as [arg|]; [|done]. cbn [value_of obind].
  pose proof (name_and_value_not_Fail arg) as Hnv.
  destruct (name_and_value arg) as [[name value]|e'|]; [|by destruct (Hnv e')|done].
  cbn [obind].
  destruct (find_if _ (flags command)) as [f|].
  - destruct value; [|eauto using add_flag_Fail].
    intros [= <-]. right. split; [done|by left].
  - destruct (find_if _ (arguments command)) as [a|].
    + destruct value; [eauto using add_argument_Fail|].
      intros [= <-]. right. split; [done|by right].
    + intros [= <-]. right. split; [done|by right].
Qed.

Lemma multi_flags_Fail fuel command name iName rc e :
  multi_flags fuel command name iName rc = Fail e → from_binder e ∨ local_error e.
Proof.
  revert iName rc. induction fuel as [|fuel IH]; intros iName rc; simpl.
  - by destruct (decide _).
  - destruct (decide _); [|done].
    destruct (sv.substr name iName None) as [rest|]; [|done]. cbn [value_of obind].
    destruct (utf8_char_length rest) as [len|];
      [|intros [= <-]; right; split; [done|by left]].
    destruct (sv.substr name iName (Some len)) as [char|]; [|done].
    cbn [value_of obind].
    destruct (codepoint char) as [cp|];
      [|intros [= <-]; right; split; [done|by left]].
    destruct (find_if _ _) as [f|];
      [|intros [= <-]; right; split; [done|by left]].
    destruct (add_flag rc f name) as [rc'|e'|] eqn:Hadd; cbn [obind]; [|..|done].
    + apply IH.
    + intros [= <-]. eauto using add_flag_Fail.
Qed.

Lemma parse_short_argument_Fail args i command rc i' e :
  parse_short_argument args i command rc = (i', Fail e) →
  (i' = i ∧ (from_binder e ∨ local_error e)) ∨
  (i' = S i ∧ i' < length args ∧ from_binder e) ∨
  (i' = S i ∧ i' = length args ∧ local_error e ∧ code (error e) = MissingValue).
Proof.
  unfold parse_short_argument, deref.
  destruct (args !! i) as [arg|]; [|done]. cbn [value_of obind].
  destruct (sv.substr arg 1 None) as [name|]; [|done]. cbn [value_of obind].
  destruct (utf8_char_length name) as [len|]; [|done]. cbn [value_of obind].
  destruct (decide (len < sv.size name)).
  { intros [= <- He]. left. eauto using multi_flags_Fail. }
  destruct (codepoint name) as [cp|];
    [|intros [= <- <-]; left; split; [done|]; right; split; [done|by left]].
  destruct (find_if _ (flags command)) as [f|].
  { intros [= <- He]. left. eauto using add_flag_Fail. }
  destruct (find_if _ (arguments command)) as [a|];
    [|intros [= <- <-]; left; split; [done|]; right; split; [done|by right]].
  destruct (decide (S i = length args)) as [Hend|Hmore].
  { intros [= <- <-]. right. right. repeat split; [done|by right]. }
  destruct (args !! S i) as [v|] eqn:Hv; [|done]. cbn [value_of obind].
  pose proof (lookup_lt_Some _ _ _ Hv).
  intros [= <- He]. right. left. eauto using add_argument_Fail.
Qed.

Lemma parse_short_argument_Ok args i command rc i' rc' :
  parse_short_argument args i command rc = (i', Ok rc') →
  i' = i ∨ (i' = S i ∧ i' < length args).
Proof.
  unfold parse_short_argument, deref.
  destruct (args !! i) as [arg|]; [|done]. cbn [value_of obind].
  destruct (sv.substr arg 1 None) as [name|]; [|done]. cbn [value_of obind].
  destruct (utf8_char_length name) as [len|]; [|done]. cbn [value_of obind].
  destruct (decide (len < sv.size name)); [intros [= <- _]; by left|].
  destruct (codepoint name) as [cp|]; [|done].
  destruct (find_if _ (flags command)) as [f|]; [intros [= <- _]; by left|].
  destruct (find_if _ (arguments command)) as [a|]; [|done].
  destruct (decide (S i = length args)) as [Hend|Hmore]; [done|].
  destruct (args !! S i) as [v|] eqn:Hv; [|done].
  pose proof (lookup_lt_Some _ _ _ Hv). intros [= <- _]. by right.
Qed.

(** One token of the loop: where the iterator stands afterwards and, for an
    error, where the error comes from. *)
Lemma parse_parameter_inv args i command rc token i' o :
  i < length args →
  parse_parameter args i command rc token = (i', o) →
  i ≤ i' ∧
  match o with
  | Ok _ => i' < length args
  | Fail e =>
      (from_binder e ∧ i' < length args) ∨
      (local_error e ∧
       (i' < length args ∨ (code (error e) = MissingValue ∧ i' = length args)))
  | Stuck => True
  end.
Proof.
  intros Hi. unfold parse_parameter.
  destruct (sv.starts_with token "--"); [|destruct (sv.starts_with token "-")].
  - destruct o as [rc'|e|].
    + unfold parse_long_argument. intros [= <- _]. lia.
    + intros [-> He]%parse_long_argument_Fail. split; [done|].
      destruct He; [left|right]; eauto.
    + unfold parse_long_argument. by intros [= <- _].
  - destruct o as [rc'|e|].
    + intros [->|[-> ?]]%parse_short_argument_Ok; lia.
    + intros [[-> He]|[(-> & ? & He)|(-> & ? & He & ?)]]%parse_short_argument_Fail.
      * split; [done|]. destruct He; [left|right]; eauto.
      * split; [lia|]. left; eauto.
      * split; [lia|]. right; eauto.
    + intros Hp. split; [|done]. revert Hp.
      unfold parse_short_argument, deref.
      repeat (case_match; cbn [value_of obind] in * ); intros [= <-]; lia.
  - intros [= <- <-]. split; [done|]. destruct (add_input rc command token) eqn:He; try done.
    left. eauto using add_input_Fail.
Qed.

(** The errors of the loop of [parse_command]: a [SyntaxError] at the index of
    a token of three dashes or more, or the error of one token, moved by the
    index the iterator has when the routine of that token returns. *)
Lemma dispatch_Fail fuel args command i rc e :
  i ≤ length args →
  dispatch fuel args command i rc = Fail e →
  (∃ j token, i ≤ j ∧ args !! j = Some token ∧ sv.starts_with token "---" = true ∧
              e = mkPositionnedError (mkError token None TNone SyntaxError) j) ∨
  (∃ j e0, i ≤ j ∧ e = offset_by j e0 ∧
           ((from_binder e0 ∧ j < length args) ∨
            (local_error e0 ∧
             (j < length args ∨ (code (error e0) = MissingValue ∧ j = length args))))).
Proof.
  revert i rc. induction fuel as [|fuel IH]; intros i rc Hi.
  { simpl. by destruct (decide _). }
  destruct (decide (i = length args)) as [->|Hne]; [by rewrite dispatch_end|].
  destruct (args !! i) as [token|] eqn:Htoken;
    [|apply lookup_ge_None in Htoken; lia].
  rewrite (dispatch_turn _ _ _ _ _ _ Htoken).
  destruct (sv.starts_with token "---") eqn:Hdashes.
  { intros [= <-]. left. exists i, token. done. }
  destruct (parse_parameter args i command rc token) as [i' o] eqn:Hp.
  apply parse_parameter_inv in Hp as [Hle Ho]; [|lia].
  destruct o as [rc'|e0|]; [|intros [= <-]; right; exists i', e0; done|done].
  intros He. apply IH in He; [|lia].
  destruct He as [(j & tok & ? & ?)|(j & e0 & ? & ?)]; [left|right].
  - exists j, tok. split; [lia|done].
  - exists j, e0. split; [lia|done].
Qed.

(** The loop of [parse_command] needs no more fuel than tokens are left. *)
Lemma dispatch_fuel fuel fuel' args command i rc :
  length args - i ≤ fuel → length args - i ≤ fuel' → i ≤ length args →
  dispatch fuel args command i rc = dispatch fuel' args command i rc.
Proof.
  revert fuel' i rc. induction fuel as [|fuel IH]; intros fuel' i rc Hf Hf' Hi.
  { replace i with (length args) by lia. by rewrite !dispatch_end. }
  destruct (decide (i = length args)) as [->|Hne]; [by rewrite !dispatch_end|].
  destruct fuel' as [|fuel']; [lia|].
  destruct (args !! i) as [token|] eqn:Htoken;
    [|apply lookup_ge_None in Htoken; lia].
  rewrite !(dispatch_turn _ _ _ _ _ _ Htoken).
  destruct (sv.starts_with token "---"); [done|].
  destruct (parse_parameter args i command rc token) as [i' o] eqn:Hp.
  apply parse_parameter_inv in Hp as [Hle Ho]; [|lia].
  destruct o as [rc'|e0|]; [|done..]. apply IH; lia.
Qed.

End errors.

(** ** Positions and types of the errors of [parse] *)

Section positions.
Context `{Collaborators}.

Lemma dispatch_loop_error fuel args command i rc e :
  i ≤ length args → dispatch fuel args command i rc = Fail e → loop_error args e.
Proof.
  intros Hi He. apply dispatch_Fail in He; [|done].
  destruct He as [(j & token & _ & Htoken & Hdashes & ->)
                 |(j & e0 & _ & -> & [[Hb Hj]|[Hl Hj]])].
  - by apply syntax_error.
  - by apply binder_error.
  - by apply token_error.
Qed.

(** The errors of [parse_command]: those of its loop, or [RequiredArgument]
    at position [0] once the loop is over. *)
Lemma parse_command_Fail args command e :
  parse_command args command = Fail e →
  loop_error args e ∨
  (position e = 0 ∧ type (error e) = TArgument ∧ code (error e) = RequiredArgument).
Proof.
  unfold parse_command.
  destruct (dispatch _ _ _ _ _) as [rc|e'|] eqn:Hloop; cbn [obind]; [|..|done].
  - unfold post_validation. destruct (decide _); [done|]. intros [= <-]. by right.
  - intros [= <-]. left. eapply dispatch_loop_error; [|done]. lia.
Qed.


Lemma loop_error_type args e :
  binder_errors (λ e, type (error e) ≠ TCommand) →
  loop_error args e → type (error e) ≠ TCommand.
Proof.
  intros Hbinder [j token _ _|j e0 Hb _|j e0 [_ Hty] _]; simpl.
  - done.
  - by apply Hbinder.
  - by destruct Hty as [-> | ->].
Qed.


(** The iterator after one token: where it was, or one further. *)
Lemma parse_parameter_advance args i command rc token i' o :
  parse_parameter args i command rc token = (i', o) → i' = i ∨ i' = S i.
Proof.
  unfold parse_parameter.
  destruct (sv.starts_with token "--"); [|destruct (sv.starts_with token "-")].
  - unfold parse_long_argument. intros [= <- _]. by left.
  - unfold parse_short_argument.
    repeat case_match; intros [= <- _]; auto.
  - intros [= <- _]. by left.
Qed.

Lemma raised_turn args command i rc token i' rc' e :
  args !! i = Some token →
  sv.starts_with token "---" = false →
  parse_parameter args i command rc token = (i', Ok rc') →
  raised args command (S i') rc' e →
  raised args command i rc e.
Proof.
  intros Htoken Hdashes Hp [j rcj tok Hreach Htok Hd|j rcj tok j' e0 Hreach Htok Hd Hq Hj].
  - eapply raised_syntax; [by eapply reaches_turn|done..].
  - eapply raised_token; [by eapply reaches_turn|done..].
Qed.

(** An error of the loop is raised at a token the loop comes to. *)
Lemma dispatch_raised fuel args command i rc e :
  dispatch fuel args command i rc = Fail e → raised args command i rc e.
Proof.
  revert i rc. induction fuel as [|fuel IH]; intros i rc; cbn [dispatch].
  { by destruct (decide _). }
  destruct (decide _); [done|]. unfold deref.
  destruct (args !! i) as [token|] eqn:Htoken; [|done]. cbn [value_of obind].
  destruct (sv.starts_with token "---") eqn:Hdashes.
  { unfold unexpected. intros [= <-]. eapply raised_syntax; [apply reaches_here|done..]. }
  destruct (parse_parameter args i command rc token) as [i' o] eqn:Hp.
  destruct o as [rc'|e0|]; [| |done].
  - intros He. eapply raised_turn; [done..|]. by apply IH.
  - intros [= <-]. eapply raised_token; [apply reaches_here|done..|].
    by eapply parse_parameter_advance.
Qed.



(** The token [token] opens no option. *)
Lemma positional_token (token : string) :
  sv.starts_with token "-" = false →
  sv.starts_with token "---" = false ∧ sv.starts_with token "--" = false.
Proof.
  destruct token as [|a s]; simpl; [done|]. by destruct (decide (a = "-"%char)).
Qed.

(** C6 (amended). When the first token after the program name opens no
    option, decodes, is the long name of no registered command and has a
    first code point that is the short name of no registered command, the
    command search falls back to the global command and leaves the token
    where it is.  When a global command is registered, [parse_command]
    receives the token as its first token and hands it to the binder as a
    positional input, and no error [parse] returns then is of type [Command],
    unless the binder makes one; when none is registered, [parse] fails
    [NoGlobalCommand], of type [Command], at the position of the token. *)
Theorem find_command_falls_back (p : Parser) (program token : string)
    (rest : list string) (cp : char32_t) :
  sv.starts_with token "-" = false →
  is_Some (utf8_char_length token) →
  codepoint token = Some cp →
  (∀ c : config.Command, c ∈ commands p → longname c ≠ token ∧ shortname c ≠ Some cp) →
  let args := program :: token :: rest in
  find_command p args = Ok (get_global_command p, 1) ∧
  (∀ g, get_global_command p = Some g →
     find_command p args = Ok (Some g, 1) ∧
     parse p args
     = match parse_command (token :: rest) g with
       | Ok parsed => Ok (mkResult program parsed)
       | Fail e => Fail (offset_by 1 e)
       | Stuck => Stuck
       end ∧
     (∀ fuel rc,
        dispatch (S fuel) (token :: rest) g 0 rc
        = match add_input rc g token with
          | Ok rc' => dispatch fuel (token :: rest) g 1 rc'
          | Fail e => Fail (offset_by 0 e)
          | Stuck => Stuck
          end) ∧
     (binder_errors (λ e, type (error e) ≠ TCommand) →
      ∀ e, parse p args = Fail e → type (error e) ≠ TCommand)) ∧
  (get_global_command p = None →
   parse p args = unexpected "" None TCommand NoGlobalCommand 1).
Proof.
  intros Hdash [char_len Hlen] Hcp Hnone args.
  assert (find_command p args = Ok (get_global_command p, 1)) as Hfind.
  { unfold find_command. rewrite decide_False by (simpl; lia). unfold deref.
    change (args !! 1) with (Some token). cbn [value_of obind].
    rewrite Hdash, Hlen.
    destruct (decide (char_len ≤ sv.size token)).
    - rewrite Hcp. cbn [value_of obind].
      assert (find_if (λ c : config.Command, shortname c = Some cp) (commands p) = None)
        as ->; [|done].
      apply find_if_None. intros c Hc. by apply Hnone.
    - cbn [obind].
      assert (find_if (λ c : config.Command, longname c = token) (commands p) = None)
        as ->; [|done].
      apply find_if_None. intros c Hc. by apply Hnone. }
  split; [done|]. split.
  - intros g Hglobal. rewrite Hglobal in Hfind.
    assert (parse p args
            = match parse_command (token :: rest) g with
              | Ok parsed => Ok (mkResult program parsed)
              | Fail e => Fail (offset_by 1 e)
              | Stuck => Stuck
              end) as Hparse.
    { unfold parse. by rewrite Hfind. }
    split; [done|]. split; [done|]. split.
    + intros fuel rc. destruct (positional_token token Hdash) as [H3 H2].
      rewrite (dispatch_turn _ _ _ _ _ token) by done.
      unfold parse_parameter. by rewrite H3, H2, Hdash.
    + intros Hbinder e. rewrite Hparse.
      destruct (parse_command (token :: rest) g) as [parsed|e'|] eqn:Hcmd;
        [done| |done].
      intros [= <-]. simpl.
      apply parse_command_Fail in Hcmd as [Hloop|(_ & -> & _)]; [|done].
      by eapply loop_error_type.
  - intros Hglobal. rewrite Hglobal in Hfind. unfold parse. by rewrite Hfind.
Qed.

End positions.




(** Runs of C6: on the demo grammar [foo] names no command and becomes the
    first token of the global command; without a global command the same
    vector fails [NoGlobalCommand] at the word. *)
Lemma find_command_falls_back_witness :
  find_command demo.parser ["prog"; "foo"; "--name=x"] = Ok (Some demo.global, 1) ∧
  parse demo.parser ["prog"; "foo"; "--name=x"]
  = Ok (mkResult "prog"
          (result.mkCommand "global"
             [result.Argument "" "foo"; result.Argument "name" "x"])) ∧
  parse demo.parser_without_global ["prog"; "foo"; "--name=x"]
  = unexpected "" None TCommand NoGlobalCommand 1.
Proof.
  assert (∀ c : config.Command, c ∈ [demo.build; demo.status] →
            longname c ≠ "foo" ∧ shortname c ≠ Some 102%N) as Hnone.
  { intros c Hc. apply list_elem_of_In in Hc. simpl in Hc.
    destruct Hc as [<-|[<-|[]]]; split; discriminate. }
  split; [|split].
  - destruct (find_command_falls_back demo.parser "prog" "foo" ["--name=x"] 102%N)
      as (Hfind & _); [reflexivity|by eexists|reflexivity|exact Hnone|exact Hfind].
  - destruct (find_command_falls_back demo.parser "prog" "foo" ["--name=x"] 102%N)
      as (_ & Hglobal & _); [reflexivity|by eexists|reflexivity|exact Hnone|].
    destruct (Hglobal demo.global eq_refl) as (_ & -> & _). reflexivity.
  - destruct (find_command_falls_back demo.parser_without_global "prog" "foo"
                ["--name=x"] 102%N)
      as (_ & _ & Hwithout); [reflexivity|by eexists|reflexivity|exact Hnone|].
    by apply Hwithout.
Defined.

(** C6, as first stated, fails twice.  Without a global command, a first
    word that names no registered command ends in an error of type
    [Command].  And with a global command, the word [stash], which is the
    long name of no registered command and is more than one code point, does
    not fall back: the command whose short name is its first code point is
    selected and the word is consumed. *)
Lemma unknown_word_without_global_command :
  ((∀ c : config.Command, c ∈ commands demo.parser_without_global →
      longname c ≠ "foo" ∧ shortname c ≠ Some 102%N) ∧
   parse demo.parser_without_global ["prog"; "foo"]
   = Fail (mkPositionnedError (mkError "" None TCommand NoGlobalCommand) 1)) ∧
  ((∀ c : config.Command, c ∈ commands demo.parser → longname c ≠ "stash") ∧
   utf8_char_length "stash" = Some 1 ∧ sv.size "stash" = 5 ∧
   get_global_command demo.parser = Some demo.global ∧
   find_command demo.parser ["prog"; "stash"] = Ok (Some demo.status, 2)).
Proof.
  split; (split; [|repeat split]);
    intros c Hc; apply list_elem_of_In in Hc; simpl in Hc;
    destruct Hc as [<-|[<-|[]]]; try split; discriminate.
Qed.

(** ** The post validation *)

Section post_validation.
Context `{Collaborators}.

Lemma elem_of_required_arguments (command : config.Command) (x : string) :
  x ∈ required_arguments command ↔
  ∃ a : config.Argument, a ∈ arguments command ∧ required a = true ∧ longname a = x.
Proof.
  unfold required_arguments.
  assert (∀ (l : list config.Argument) (acc : gset string),
    x ∈ foldl (λ (acc : gset string) (argument : config.Argument),
                 if required argument
                 then acc ∪ {[ longname (argument : Common) ]} else acc) acc l
    ↔ x ∈ acc ∨ ∃ a : config.Argument, a ∈ l ∧ required a = true ∧ longname a = x)
    as Hfold.
  { induction l as [|a l IH]; intros acc; simpl.
    - split; [by left|]. intros [?|(a & Ha & _)]; [done|]. by apply elem_of_nil in Ha.
    - rewrite IH. split.
      + intros [Hacc|(a' & Ha' & ?)].
        * destruct (required a) eqn:Hreq; [|by left].
          apply elem_of_union in Hacc as [?|Hx%elem_of_singleton]; [by left|].
          right. exists a. split; [left|done].
        * right. exists a'. split; [by right|done].
      + intros [Hacc|(a' & Ha' & Hreq & Hname)].
        * left. destruct (required a); [|done]. apply elem_of_union. by left.
        * apply elem_of_cons in Ha' as [->|Ha'].
          -- left. rewrite Hreq. apply elem_of_union. right.
             by apply elem_of_singleton.
          -- right. by exists a'. }
  rewrite Hfold. split; [|by right]. by intros [?%not_elem_of_empty|?].
Qed.

Lemma elem_of_erase_bound (params : list Parameter_) (s : gset string) (x : string) :
  x ∈ erase_bound params s ↔ x ∈ s ∧ ∀ v, result.Argument x v ∉ params.
Proof.
  unfold erase_bound. revert s. induction params as [|param params IH]; intros s; simpl.
  - split; [|by intros [? _]]. intros Hx. split; [done|]. intros v Hv.
    by apply elem_of_nil in Hv.
  - rewrite IH. destruct param as [n w|n k].
    + destruct (decide (n ∈ s)) as [Hn|Hn].
      * rewrite elem_of_difference, elem_of_singleton. split.
        -- intros [[Hx Hne] Hrest]. split; [done|]. intros v [[= ? ?]|?]%elem_of_cons;
             [done|by eapply Hrest].
        -- intros [Hx Hnone]. split; [split; [done|]|].
           ++ intros ->. apply (Hnone w). left.
           ++ intros v Hv. apply (Hnone v). by right.
      * split.
        -- intros [Hx Hrest]. split; [done|]. intros v [[= ? ?]|?]%elem_of_cons;
             [congruence|by eapply Hrest].
        -- intros [Hx Hnone]. split; [done|]. intros v Hv. apply (Hnone v). by right.
    + split.
      * intros [Hx Hrest]. split; [done|]. intros v [?|?]%elem_of_cons;
          [done|by eapply Hrest].
      * intros [Hx Hnone]. split; [done|]. intros v Hv. apply (Hnone v). by right.
Qed.

(** Whether an argument is missing is decided by the set the code computes. *)
Lemma classic_missing command rc :
  (∃ a, missing command rc a) ∨ (∀ a, ¬ missing command rc a).
Proof.
  destruct (decide (erase_bound (parameters rc) (required_arguments command) = ∅))
    as [Hempty|Hsome].
  - right. intros a (Ha & Hreq & Hx).
    assert (longname (a : Common)
            ∈ erase_bound (parameters rc) (required_arguments command)) as Hin.
    { rewrite elem_of_erase_bound, elem_of_required_arguments. split; [|done].
      by exists a. }
    rewrite Hempty in Hin. by apply not_elem_of_empty in Hin.
  - left. apply set_choose_L in Hsome as [x Hx].
    apply elem_of_erase_bound in Hx as [(a & Ha & Hreq & <-)%elem_of_required_arguments Hx].
    by exists a.
Qed.

Lemma post_validation_Ok command rc :
  (∀ a, ¬ missing command rc a) → post_validation command rc = Ok rc.
Proof.
  intros Hnone. unfold post_validation. rewrite decide_True; [done|].
  apply leibniz_equiv, elem_of_equiv_empty. intros x.
  rewrite elem_of_erase_bound, elem_of_required_arguments.
  intros [(a & Ha & Hreq & <-) Hx]. by apply (Hnone a).
Qed.

Lemma post_validation_Fail command rc a :
  missing command rc a →
  ∃ name, post_validation command rc = unexpected name None TArgument RequiredArgument 0.
Proof.
  intros (Ha & Hreq & Hx). unfold post_validation. rewrite decide_False; [by eexists|].
  intros Hempty.
  assert (longname (a : Common)
          ∈ erase_bound (parameters rc) (required_arguments command)) as Hin.
  { rewrite elem_of_erase_bound, elem_of_required_arguments. split; [|done].
    by exists a. }
  rewrite Hempty in Hin. by apply not_elem_of_empty in Hin.
Qed.

(** *** The binder contract along the loop *)

Lemma keeps_arguments_refl rc : keeps_arguments rc rc.
Proof. by intros n v. Qed.

Lemma keeps_arguments_trans rc1 rc2 rc3 :
  keeps_arguments rc1 rc2 → keeps_arguments rc2 rc3 → keeps_arguments rc1 rc3.
Proof. intros H12 H23 n v Hin. by apply H23, H12. Qed.

Lemma multi_flags_keeps fuel command name iName rc rc' :
  binder_records_arguments →
  multi_flags fuel command name iName rc = Ok rc' → keeps_arguments rc rc'.
Proof.
  intros (Hflag & _ & _). revert iName rc.
  induction fuel as [|fuel IH]; intros iName rc; simpl.
  - destruct (decide _); [done|]. intros [= <-]. apply keeps_arguments_refl.
  - destruct (decide _); [|intros [= <-]; apply keeps_arguments_refl].
    destruct (sv.substr name iName None) as [rest|]; [|done]. cbn [value_of obind].
    destruct (utf8_char_length rest) as [len|]; [|done].
    destruct (sv.substr name iName (Some len)) as [char|]; [|done].
    cbn [value_of obind].
    destruct (codepoint char) as [cp|]; [|done].
    destruct (find_if _ _) as [f|]; [|done].
    destruct (add_flag rc f name) as [rc1| |] eqn:Hadd; cbn [obind]; [|done..].
    intros Hrest. eapply keeps_arguments_trans; [by eapply Hflag|by eapply IH].
Qed.

Lemma parse_parameter_keeps args i command rc token i' rc' :
  binder_records_arguments →
  parse_parameter args i command rc token = (i', Ok rc') → keeps_arguments rc rc'.
Proof.
  intros Hbinder. pose proof Hbinder as (Hflag & Hargument & Hinput).
  unfold parse_parameter.
  destruct (sv.starts_with token "--"); [|destruct (sv.starts_with token "-")].
  - unfold parse_long_argument, deref. intros [= _ Hp]. revert Hp.
    destruct (args !! i) as [arg|]; [|done]. cbn [value_of obind].
    destruct (name_and_value arg) as [[name value]| |]; [|done..]. cbn [obind].
    destruct (find_if _ (flags command)) as [f|].
    + destruct value; [done|]. apply Hflag.
    + destruct (find_if _ (arguments command)) as [a|]; [|done].
      destruct value; [|done]. intros Hadd. by apply Hargument in Hadd as [? _].
  - unfold parse_short_argument, deref.
    destruct (args !! i) as [arg|]; [|done]. cbn [value_of obind].
    destruct (sv.substr arg 1 None) as [name|]; [|done]. cbn [value_of obind].
    destruct (utf8_char_length name) as [len|]; [|done]. cbn [value_of obind].
    destruct (decide (len < sv.size name)).
    { intros [= _ Hp]. by eapply multi_flags_keeps. }
    destruct (codepoint name) as [cp|]; [|done].
    destruct (find_if _ (flags command)) as [f|].
    { intros [= _ Hp]. by eapply Hflag. }
    destruct (find_if _ (arguments command)) as [a|]; [|done].
    destruct (decide (S i = length args)); [done|].
    destruct (args !! S i) as [v|]; [|done]. cbn [value_of obind].
    intros [= _ Hadd]. by apply Hargument in Hadd as [? _].
  - intros [= _ Hp]. by eapply Hinput.
Qed.

Lemma dispatch_keeps fuel args command i rc rc' :
  binder_records_arguments →
  i ≤ length args →
  dispatch fuel args command i rc = Ok rc' → keeps_arguments rc rc'.
Proof.
  intros Hbinder. revert i rc. induction fuel as [|fuel IH]; intros i rc Hi.
  { simpl. destruct (decide _); [|done]. intros [= <-]. apply keeps_arguments_refl. }
  destruct (decide (i = length args)) as [->|Hne].
  { rewrite dispatch_end. intros [= <-]. apply keeps_arguments_refl. }
  destruct (args !! i) as [token|] eqn:Htoken;
    [|apply lookup_ge_None in Htoken; lia].
  rewrite (dispatch_turn _ _ _ _ _ _ Htoken).
  destruct (sv.starts_with token "---"); [done|].
  destruct (parse_parameter args i command rc token) as [i' o] eqn:Hp.
  pose proof Hp as [Hle Ho]%parse_parameter_inv; [|lia].
  destruct o as [rc1| |]; [|done..]. intros Hrest.
  eapply keeps_arguments_trans; [by eapply parse_parameter_keeps|].
  eapply IH; [|done]. lia.
Qed.

(** *** The loop on a vector and on a prefix of it *)

Lemma parse_parameter_app pre l i command rc token i' rc' :
  pre !! i = Some token →
  parse_parameter pre i command rc token = (i', Ok rc') →
  parse_parameter (pre ++ l) i command rc token = (i', Ok rc').
Proof.
  intros Htoken. pose proof (lookup_lt_Some _ _ _ Htoken) as Hi.
  unfold parse_parameter.
  destruct (sv.starts_with token "--"); [|destruct (sv.starts_with token "-")]; [| |done].
  - unfold parse_long_argument, deref. by rewrite (lookup_app_l_Some _ _ _ _ Htoken), Htoken.
  - unfold parse_short_argument, deref.
    rewrite (lookup_app_l_Some _ _ _ _ Htoken), Htoken. cbn [value_of obind].
    destruct (sv.substr token 1 None) as [name|]; [|done]. cbn [value_of obind].
    destruct (utf8_char_length name) as [len|]; [|done]. cbn [value_of obind].
    destruct (decide (len < sv.size name)); [done|].
    destruct (codepoint name) as [cp|]; [|done].
    destruct (find_if _ (flags command)) as [f|]; [done|].
    destruct (find_if _ (arguments command)) as [a|]; [|done].
    destruct (decide (S i = length pre)); [done|].
    destruct (pre !! S i) as [v|] eqn:Hv; [|done].
    pose proof (lookup_lt_Some _ _ _ Hv).
    rewrite decide_False by (rewrite length_app; lia).
    by rewrite (lookup_app_l_Some _ _ _ _ Hv).
Qed.

(** When the loop runs to its end on [pre], it reaches the end of [pre] with
    the same result on every vector that starts with [pre]. *)
Lemma dispatch_app pre l command fuel i rc rc1 :
  i ≤ length pre →
  dispatch fuel pre command i rc = Ok rc1 →
  dispatch (length (pre ++ l) - i) (pre ++ l) command i rc
  = dispatch (length (pre ++ l) - length pre) (pre ++ l) command (length pre) rc1.
Proof.
  revert i rc. induction fuel as [|fuel IH]; intros i rc Hi.
  { simpl. destruct (decide _) as [->|]; [|done]. by intros [= <-]. }
  destruct (decide (i = length pre)) as [->|Hne].
  { rewrite dispatch_end. by intros [= <-]. }
  destruct (pre !! i) as [token|] eqn:Htoken;
    [|apply lookup_ge_None in Htoken; lia].
  rewrite (dispatch_turn _ _ _ _ _ _ Htoken).
  destruct (sv.starts_with token "---") eqn:Hdashes; [done|].
  destruct (parse_parameter pre i command rc token) as [i' o] eqn:Hp.
  pose proof Hp as [Hle Ho]%parse_parameter_inv; [|lia].
  destruct o as [rc'| |]; [|done..]. intros Hrest.
  assert (length (pre ++ l) - i = S (length (pre ++ l) - S i)) as ->.
  { rewrite length_app. lia. }
  rewrite (dispatch_turn _ _ _ _ _ token) by by apply lookup_app_l_Some.
  rewrite Hdashes, (parse_parameter_app _ _ _ _ _ _ _ _ Htoken Hp).
  rewrite (dispatch_fuel _ (length (pre ++ l) - S i')); [|rewrite ?length_app; lia..].
  apply IH; [lia|done].
Qed.

(** *** Supplying an argument *)

Lemma dispatch_long_form fuel args i command rc (a : config.Argument) v rc' :
  binder_records_arguments →
  args !! i = Some (long_token (longname (a : Common)) (Some v)) →
  sv.find (longname (a : Common)) "="%char = None →
  a ∈ arguments command →
  dispatch (S fuel) args command i rc = Ok rc' →
  result.Argument (longname (a : Common)) v ∈ parameters rc'.
Proof.
  intros Hbinder Htoken Hname Ha. pose proof Hbinder as (_ & Hargument & _).
  pose proof (lookup_lt_Some _ _ _ Htoken) as Hi.
  rewrite (dispatch_turn _ _ _ _ _ _ Htoken).
  destruct (sv.starts_with _ "---"); [done|].
  unfold parse_parameter. rewrite long_token_starts_with.
  unfold parse_long_argument, deref. rewrite Htoken. cbn [value_of obind].
  rewrite name_and_value_long_token by done. cbn [obind].
  destruct (find_if _ (flags command)) as [f|]; [done|].
  destruct (find_if_is_Some (λ x : config.Argument, long_finder (longname (a : Common)) x)
              (arguments command) a Ha eq_refl) as [a' Ha'].
  unfold long_finder in *. rewrite Ha'.
  apply find_if_Some in Ha' as [_ Hsame].
  destruct (add_argument rc a' _ v) as [rc2| |] eqn:Hadd; [|done..].
  apply Hargument in Hadd as [_ Hin]. rewrite Hsame in Hin. intros Hrest.
  apply dispatch_keeps in Hrest; [|done|lia]. by apply Hrest.
Qed.

Lemma dispatch_short_form fuel args i command rc name cp (a : config.Argument) v rc' :
  binder_records_arguments →
  args !! i = Some (short_token name) →
  args !! S i = Some v →
  sv.starts_with name "-" = false →
  codepoints name = Some [cp] →
  flag_of command cp = None →
  find_if (λ a : config.Argument, short_finder cp a) (arguments command) = Some a →
  dispatch (S fuel) args command i rc = Ok rc' →
  result.Argument (longname (a : Common)) v ∈ parameters rc'.
Proof.
  intros Hbinder Htoken Hv Hdash Hcps Hflag Ha.
  pose proof Hbinder as (_ & Hargument & _).
  pose proof (lookup_lt_Some _ _ _ Hv) as Hi.
  destruct (dispatch_short_value fuel args i command rc name cp a v) as [_ ->];
    try done.
  destruct (add_argument rc a name v) as [rc2| |] eqn:Hadd; [|done..].
  apply Hargument in Hadd as [_ Hin]. cbn [obind]. intros Hrest.
  apply dispatch_keeps in Hrest; [|done|lia]. by apply Hrest.
Qed.

(** C4. Once the loop of [parse_command] is over without an error,
    [RequiredArgument] is returned exactly when an argument marked required
    on the command has no bound argument under its long name, and the result
    of the loop is returned otherwise.  With a binder that records a bound
    argument under the long name of the registered argument and keeps what
    was bound before, supplying a required argument in the long form
    [--name=v] or in the short form [-x v] satisfies its requirement. *)
Theorem parse_command_required_arguments (args : list string)
    (command : config.Command) (rc : result.Command) :
  dispatch (length args) args command 0 (result.mkCommand (longname command) []) = Ok rc →
  ((∃ e, parse_command args command = Fail e ∧ code (error e) = RequiredArgument)
   ↔ ∃ a, missing command rc a) ∧
  ((∀ a, ¬ missing command rc a) → parse_command args command = Ok rc) ∧
  (binder_records_arguments →
   ∀ pre tokens post a v rc1,
     args = pre ++ tokens ++ post →
     dispatch (length pre) pre command 0 (result.mkCommand (longname command) [])
     = Ok rc1 →
     long_form command a v tokens ∨ short_form command a v tokens →
     result.Argument (longname (a : Common)) v ∈ parameters rc ∧
     ¬ missing command rc a).
Proof.
  intros Hloop.
  assert (parse_command args command = post_validation command rc) as Hparse.
  { unfold parse_command. by rewrite Hloop. }
  split; [|split].
  - rewrite Hparse. split.
    + intros (e & He & Hcode).
      destruct (classic_missing command rc) as [?|Hnone]; [done|].
      by rewrite (post_validation_Ok _ _ Hnone) in He.
    + intros [a Ha]. destruct (post_validation_Fail _ _ _ Ha) as [name ->].
      by eexists.
  - intros Hnone. rewrite Hparse. by apply post_validation_Ok.
  - intros Hbinder pre tokens post a v rc1 -> Hpre Hform.
    assert (result.Argument (longname (a : Common)) v ∈ parameters rc) as Hin.
    { apply (dispatch_app pre (tokens ++ post)) in Hpre; [|lia].
      rewrite Nat.sub_0_r, Hloop in Hpre. symmetry in Hpre.
      destruct Hform as [(-> & Hname & Ha)|(name & cp & -> & Hdash & Hcps & Hflag & Ha)].
      - replace (length (pre ++ [long_token (longname (a : Common)) (Some v)] ++ post)
                 - length pre) with (S (length post)) in Hpre
          by (rewrite !length_app; simpl; lia).
        eapply dispatch_long_form; [done| |done..].
        simpl. by apply list_lookup_middle.
      - replace (length (pre ++ [short_token name; v] ++ post) - length pre)
          with (S (S (length post))) in Hpre
          by (rewrite !length_app; simpl; lia).
        eapply dispatch_short_form; [done| | |done..].
        + simpl. by apply list_lookup_middle.
        + rewrite lookup_app_r by lia.
          by replace (S (length pre) - length pre) with 1 by lia. }
    split; [done|]. intros (_ & _ & Hnone). by apply (Hnone v).
Qed.

End post_validation.

(** The binder of the specification meets the contract on arguments. *)
Lemma spec_binder_records_arguments : binder_records_arguments.
Proof.
  split; [|split].
  - intros rc f name rc' [= <-] n v. simpl.
    induction (parameters rc) as [|param params IH]; simpl.
    + intros Hin. by apply elem_of_nil in Hin.
    + intros [<-|Hin]%elem_of_cons; [left|].
      destruct param as [n' v'|n' k]; [right; by apply IH|].
      destruct (decide (n' = longname (f : Common))); right; [done|by apply IH].
  - intros rc a name v rc' [= <-]. split.
    + intros n w Hin. simpl. apply elem_of_app. by left.
    + simpl. apply elem_of_app. right. left.
  - intros rc c token rc' [= <-] n v Hin. simpl. apply elem_of_app. by left.
Qed.

(** Runs of C4 on the demo grammar, where [name] is required: it is supplied
    in the long form after [-v], in the short form, and not at all. *)
Lemma parse_command_required_arguments_witness :
  parse_command ["-v"; "--name=x"] demo.global
  = Ok (result.mkCommand "global"
          [result.Flag "verbose" 1; result.Argument "name" "x"]) ∧
  parse_command ["-n"; "x"] demo.global
  = Ok (result.mkCommand "global" [result.Argument "name" "x"]) ∧
  ∃ e, parse_command ["-v"] demo.global = Fail e ∧ code (error e) = RequiredArgument.
Proof.
  set (name := mkArgument (mkCommon "name" (Some 110%N)) true).
  assert (∀ rc, ¬ missing demo.global rc name →
                ∀ a, ¬ missing demo.global rc a) as Honly.
  { intros rc Hname a Ha. pose proof Ha as (Hin & Hreq & _).
    apply list_elem_of_In in Hin. simpl in Hin.
    destruct Hin as [<-|[<-|[]]]; [done|discriminate Hreq]. }
  split; [|split].
  - destruct (parse_command_required_arguments ["-v"; "--name=x"] demo.global
                (result.mkCommand "global"
                   [result.Flag "verbose" 1; result.Argument "name" "x"]))
      as (_ & Hok & Hsupply); [reflexivity|].
    apply Hok, Honly.
    apply (Hsupply spec_binder_records_arguments ["-v"] ["--name=x"] [] name "x"
             (result.mkCommand "global" [result.Flag "verbose" 1]));
      [reflexivity..|].
    left. repeat split. left.
  - destruct (parse_command_required_arguments ["-n"; "x"] demo.global
                (result.mkCommand "global" [result.Argument "name" "x"]))
      as (_ & Hok & Hsupply); [reflexivity|].
    apply Hok, Honly.
    apply (Hsupply spec_binder_records_arguments [] ["-n"; "x"] [] name "x"
             (result.mkCommand "global" []));
      [reflexivity..|].
    right. exists "n", 110%N. repeat split.
  - destruct (parse_command_required_arguments ["-v"] demo.global
                (result.mkCommand "global" [result.Flag "verbose" 1]))
      as (Hiff & _); [reflexivity|].
    apply Hiff. exists name. split; [left|]. split; [reflexivity|].
    intros v Hin. apply list_elem_of_In in Hin. simpl in Hin.
    destruct Hin as [|[]]; discriminate.
Defined.

(** ** Further properties of the command search and of [parse] *)

Section entry.
Context `{Collaborators}.

(** [find_if] returns the first element that satisfies the predicate. *)
Lemma find_if_first {A} (P : A → Prop) `{∀ x, Decision (P x)} (l1 l2 : list A) (x : A) :
  (∀ y, y ∈ l1 → ¬ P y) → P x → find_if P (l1 ++ x :: l2) = Some x.
Proof.
  intros Hl1 HP.
  destruct (find_if P (l1 ++ x :: l2)) as [y|] eqn:Hfind.
  - unfold find_if in Hfind.
    destruct (list_find P (l1 ++ x :: l2)) as [[i z]|] eqn:Hlist; [|done].
    injection Hfind as ->. apply list_find_Some in Hlist as (Hi & Hy & Hleast).
    destruct (decide (i < length l1)) as [Hlt|Hge].
    + rewrite lookup_app_l in Hi by done.
      destruct (Hl1 y); [by eapply list_elem_of_lookup_2|done].
    + destruct (decide (i = length l1)) as [->|Hne].
      * rewrite list_lookup_middle in Hi by done. congruence.
      * destruct (Hleast (length l1) x); [by apply list_lookup_middle|lia|done].
  - rewrite find_if_None in Hfind. destruct (Hfind x); [|done].
    apply elem_of_app. right. left.
Qed.

(** [parse] once the program name is read. *)
Lemma parse_after_program (p : Parser) (program : string) (rest : list string) :
  parse p (program :: rest)
  = ('(current_command, itarg) ←! find_command p (program :: rest);
     match current_command with
     | None => unexpected "" None TCommand NoGlobalCommand itarg
     | Some command =>
         match parse_command (drop itarg (program :: rest)) command with
         | Ok parsed_cmd => Ok (mkResult program parsed_cmd)
         | Fail e => Fail (offset_by itarg e)
         | Stuck => Stuck
         end
     end).
Proof. reflexivity. Qed.

(** X4. A first token that opens no option and whose first code point has
    no decodable length makes [parse] fail [BadString] at position [1], with
    an empty name and type [None], whatever the grammar and whatever
    follows. *)
Theorem parse_bad_command_token (p : Parser) (program token : string)
    (rest : list string) :
  sv.starts_with token "-" = false →
  utf8_char_length token = None →
  parse p (program :: token :: rest) = unexpected "" None TNone BadString 1.
Proof.
  intros Hdash Hlen. rewrite parse_after_program.
  unfold find_command. rewrite decide_False by (simpl; lia). unfold deref.
  change ((program :: token :: rest) !! 1) with (Some token).
  cbn [value_of obind]. by rewrite Hdash, Hlen.
Qed.

(** [get_global_command] finds nothing exactly when no global command was
    set, or when it was set by a long name no registered command has. *)
Lemma get_global_command_None (p : Parser) :
  get_global_command p = None ↔
  global_command p = None ∨
  ∃ name, global_command p = Some (inr name) ∧
          ∀ c : config.Command, c ∈ commands p → longname c ≠ name.
Proof.
  unfold get_global_command. destruct (global_command p) as [[command|name]|].
  - split; [done|]. by intros [?|(? & ? & _)].
  - rewrite find_if_None. split.
    + intros Hnone. right. exists name. split; [done|]. intros c Hc Heq.
      by apply (Hnone c).
    + intros [?|(name' & [= <-] & Hnone)]; [done|]. intros c Hc Heq.
      by apply (Hnone c).
  - split; [by left|done].
Qed.

(** X3. Without a usable global command (none set, or one set by a long
    name that no registered command has), every vector that holds the program
    name alone, or whose next token starts with a dash, fails
    [NoGlobalCommand], of type [Command], at position [1]. *)
Theorem parse_without_global_command (p : Parser) (program : string)
    (rest : list string) :
  (global_command p = None ∨
   ∃ name, global_command p = Some (inr name) ∧
           ∀ c : config.Command, c ∈ commands p → longname c ≠ name) →
  (rest = [] ∨ ∃ token, head rest = Some token ∧ sv.starts_with token "-" = true) →
  parse p (program :: rest) = unexpected "" None TCommand NoGlobalCommand 1.
Proof.
  intros Hglobal%get_global_command_None Hrest.
  assert (find_command p (program :: rest) = Ok (None, 1)) as Hfind.
  { rewrite <-Hglobal. apply find_command_global.
    destruct Hrest as [->|(token & Htoken & Hdash)]; [by left|].
    right. exists token. split; [|done]. by destruct rest. }
  rewrite parse_after_program. by rewrite Hfind.
Qed.

(** X2. On the program name alone the global command governs and the loop
    binds nothing: the result carries the long name of the global command and
    no parameter when none of its arguments is required, and [parse] fails
    [RequiredArgument] at position [1] when one is. *)
Theorem parse_program_only (p : Parser) (program : string) (g : config.Command) :
  get_global_command p = Some g →
  ((∀ a : config.Argument, a ∈ arguments g → required a = false) →
   parse p [program] = Ok (mkResult program (result.mkCommand (longname g) []))) ∧
  ((∃ a : config.Argument, a ∈ arguments g ∧ required a = true) →
   ∃ name, parse p [program] = unexpected name None TArgument RequiredArgument 1).
Proof.
  intros Hglobal.
  assert (parse p [program]
          = match post_validation g (result.mkCommand (longname g) []) with
            | Ok parsed => Ok (mkResult program parsed)
            | Fail e => Fail (offset_by 1 e)
            | Stuck => Stuck
            end) as ->.
  { rewrite parse_after_program.
    rewrite (find_command_global p [program]) by by left.
    cbn [obind]. rewrite Hglobal. done. }
  split.
  - intros Hnone. rewrite post_validation_Ok; [done|].
    intros a (Ha & Hreq & _). by rewrite (Hnone a Ha) in Hreq.
  - intros (a & Ha & Hreq).
    destruct (post_validation_Fail g (result.mkCommand (longname g) []) a)
      as [name ->]; [|by exists name].
    split; [done|]. split; [done|]. intros v Hv. by apply elem_of_nil in Hv.
Qed.

(** X5. A first token that opens no option and whose first code point is
    the short name of a registered command selects the first command
    registered with that short name, whatever bytes follow the code point in
    the token; the token is consumed, the rest of the vector is parsed for
    that command, and the position of an error is counted from index [2]. *)
Theorem parse_command_by_short_name (p : Parser) (program token : string)
    (rest : list string) (char_len : nat) (cp : char32_t)
    (before after : list config.Command) (c : config.Command) :
  sv.starts_with token "-" = false →
  utf8_char_length token = Some char_len →
  char_len ≤ sv.size token →
  codepoint token = Some cp →
  commands p = before ++ c :: after →
  (∀ c' : config.Command, c' ∈ before → shortname c' ≠ Some cp) →
  shortname c = Some cp →
  find_command p (program :: token :: rest) = Ok (Some c, 2) ∧
  parse p (program :: token :: rest)
  = match parse_command rest c with
    | Ok parsed => Ok (mkResult program parsed)
    | Fail e => Fail (offset_by 2 e)
    | Stuck => Stuck
    end.
Proof.
  intros Hdash Hlen Hle Hcp Hcommands Hbefore Hc.
  assert (find_command p (program :: token :: rest) = Ok (Some c, 2)) as Hfind.
  { rewrite (find_command_by_short_name p _ token char_len cp) by done.
    rewrite Hcommands.
    by rewrite (find_if_first (λ c : config.Command, shortname c = Some cp)). }
  split; [done|]. rewrite parse_after_program. by rewrite Hfind.
Qed.

(** X1. A token of three dashes or more that the loop of [parse_command]
    reaches makes it fail [SyntaxError], whatever the command registers: the
    error carries the whole token and the index of the token. *)
Theorem parse_command_syntax_error (command : config.Command)
    (pre : list string) (token : string) (post : list string)
    (rc1 : result.Command) :
  dispatch (length pre) pre command 0 (result.mkCommand (longname command) [])
  = Ok rc1 →
  sv.starts_with token "---" = true →
  parse_command (pre ++ token :: post) command
  = unexpected token None TNone SyntaxError (length pre).
Proof.
  intros Hpre Hdashes. unfold parse_command.
  apply (dispatch_app pre (token :: post)) in Hpre; [|lia].
  rewrite Nat.sub_0_r in Hpre. rewrite Hpre.
  replace (length (pre ++ token :: post) - length pre) with (S (length post))
    by (rewrite length_app; simpl; lia).
  rewrite (dispatch_turn _ _ _ _ _ token) by by apply list_lookup_middle.
  by rewrite Hdashes.
Qed.

End entry.

(** A run of X4: the byte [0xFF] as first token. *)
Lemma parse_bad_command_token_witness :
  parse demo.parser ["prog"; demo.bad_byte; "-v"]
  = unexpected "" None TNone BadString 1.
Proof. apply (parse_bad_command_token demo.parser); reflexivity. Defined.

(** A run of X3: no global command, and an option as first token. *)
Lemma parse_without_global_command_witness :
  parse demo.parser_without_global ["prog"; "-v"]
  = unexpected "" None TCommand NoGlobalCommand 1.
Proof.
  apply (parse_without_global_command demo.parser_without_global "prog" ["-v"]).
  - by left.
  - right. by exists "-v".
Defined.

(** Runs of X2: [build] as global command requires nothing, the global
    command of the demo grammar requires [name]. *)
Lemma parse_program_only_witness :
  parse (mkParser (Some (inl demo.build)) []) ["prog"]
  = Ok (mkResult "prog" (result.mkCommand "build" [])) ∧
  ∃ name, parse demo.parser ["prog"]
          = unexpected name None TArgument RequiredArgument 1.
Proof.
  split.
  - apply (parse_program_only (mkParser (Some (inl demo.build)) []) "prog" demo.build);
      [reflexivity|].
    intros a Ha. by apply elem_of_nil in Ha.
  - apply (parse_program_only demo.parser "prog" demo.global); [reflexivity|].
    exists (mkArgument (mkCommon "name" (Some 110%N)) true). split; [left|reflexivity].
Defined.

(** A run of X5: [status], registered second, has the short name [s]; the
    token [sync], which starts with [s], selects it as well. *)
Lemma parse_command_by_short_name_witness :
  find_command demo.parser ["prog"; "s"] = Ok (Some demo.status, 2) ∧
  find_command demo.parser ["prog"; "sync"] = Ok (Some demo.status, 2).
Proof.
  assert (∀ c' : config.Command, c' ∈ [demo.build] → shortname c' ≠ Some 115%N)
    as Hbefore.
  { intros c' Hc'. apply list_elem_of_In in Hc'. simpl in Hc'.
    by destruct Hc' as [<-|[]]. }
  split.
  - destruct (parse_command_by_short_name demo.parser "prog" "s" [] 1 115%N
                [demo.build] [] demo.status) as [Hfind _];
      [reflexivity|reflexivity|cbv; lia|reflexivity|reflexivity|exact Hbefore
      |reflexivity|exact Hfind].
  - destruct (parse_command_by_short_name demo.parser "prog" "sync" [] 1 115%N
                [demo.build] [] demo.status) as [Hfind _];
      [reflexivity|reflexivity|cbv; lia|reflexivity|reflexivity|exact Hbefore
      |reflexivity|exact Hfind].
Defined.

(** A run of X1: [---x] after a flag. *)
Lemma parse_command_syntax_error_witness :
  parse_command ["-v"; "---x"; "--name=y"] demo.global
  = unexpected "---x" None TNone SyntaxError 1.
Proof.
  apply (parse_command_syntax_error demo.global ["-v"] "---x" ["--name=y"]
           (result.mkCommand "global" [result.Flag "verbose" 1])); reflexivity.
Defined.

(** ** Further properties of the short options *)

Section short_flags.
Context `{Collaborators}.
Import sv_facts.

(** X6. A short-option token of a single code point that is the short name
    of a flag binds the first flag registered with it, also when an argument
    has the same short name; no value is taken: the loop of [parse_command]
    goes on with the very next token. *)
Theorem parse_short_argument_flag (args : list string) (itarg : nat)
    (command : config.Command) (rc : result.Command)
    (name : string) (cp : char32_t) (f : config.Flag) :
  args !! itarg = Some (short_token name) →
  sv.starts_with name "-" = false →
  codepoints name = Some [cp] →
  flag_of command cp = Some f →
  parse_short_argument args itarg command rc = (itarg, add_flag rc f name) ∧
  ∀ fuel, dispatch (S fuel) args command itarg rc
          = (rc' ←! moved itarg (add_flag rc f name);
             dispatch fuel args command (S itarg) rc').
Proof.
  intros Harg Hdash Hcps Hflag. unfold codepoints in Hcps.
  apply codepoints_upto_cons in Hcps as (n' & len & _ & Hlen & _ & _ & Hcp & Hrest).
  apply codepoints_upto_nil in Hrest.
  assert (sv.size name ≤ len) as Hsize.
  { pose proof (size_drop len name) as Hs. rewrite Hrest in Hs.
    unfold sv.size in Hs at 1. simpl in Hs. lia. }
  rewrite take_all in Hcp by done.
  assert (parse_short_argument args itarg command rc = (itarg, add_flag rc f name))
    as Hbound.
  { unfold parse_short_argument.
    rewrite (parse_short_argument_head _ _ name) by done. rewrite Hlen. simpl.
    rewrite decide_False by lia. rewrite Hcp. unfold flag_of in Hflag.
    by rewrite Hflag. }
  split; [done|]. intros fuel.
  destruct (short_token_class name Hdash) as (H3 & H2 & H1).
  rewrite (dispatch_turn _ _ _ _ _ _ Harg), H3. unfold parse_parameter.
  rewrite H2, H1, Hbound. by destruct (add_flag rc f name).
Qed.

(** The loop of the combined form along a reading: the flags read are bound
    and the loop stands at the end of the reading. *)
Lemma multi_flags_reads command name i cps j :
  reads name i cps j →
  ∀ fs fuel rc rc',
    mapM (flag_of command) cps = Some fs →
    bind_flags rc fs name = Ok rc' →
    multi_flags (length cps + fuel) command name i rc
    = multi_flags fuel command name j rc'.
Proof.
  induction 1 as [i|i len cp cps j Hi Hlen Hpos Hcp Hreads IH];
    intros fs fuel rc rc' Hfs Hbind.
  - injection Hfs as <-. by injection Hbind as ->.
  - simpl in Hfs. destruct (flag_of command cp) as [f|] eqn:Hflag; [|done].
    simpl in Hfs. destruct (mapM (flag_of command) cps) as [fs'|] eqn:Hfs'; [|done].
    injection Hfs as <-. simpl in Hbind.
    destruct (add_flag rc f name) as [rc1| |] eqn:Hadd; [|done..].
    cbn [obind] in Hbind.
    cbn [length Nat.add multi_flags]. rewrite decide_True by done.
    rewrite substr_from by lia. cbn [value_of obind]. rewrite Hlen.
    rewrite substr_upto by lia. cbn [value_of obind]. rewrite Hcp.
    unfold flag_of in Hflag. rewrite Hflag, Hadd. cbn [obind].
    by eapply IH.
Qed.

(** A reading advances by at least one byte for each code point. *)
Lemma reads_length name i cps j : reads name i cps j → i + length cps ≤ j.
Proof.
  induction 1 as [i|i len cp cps j Hi Hlen Hpos Hcp Hreads IH]; simpl; lia.
Qed.

(** X7. The decodes inside the two forms are guarded.  In the combined form,
    when the name reads as code points that name flags up to an offset where
    a decode fails (the length of the code point or the code point itself),
    the token fails [BadString], of type [Flag], with the whole name portion;
    in the single form, a name whose code point cannot be decoded fails the
    same way. *)
Theorem parse_short_argument_bad_string (args : list string) (itarg : nat)
    (command : config.Command) (rc : result.Command)
    (name : string) (len : nat) :
  args !! itarg = Some (short_token name) →
  utf8_char_length name = Some len →
  (len < sv.size name →
   ∀ cps i fs rc',
     reads name 0 cps i →
     i < sv.size name →
     decode_fails name i →
     mapM (flag_of command) cps = Some fs →
     bind_flags rc fs name = Ok rc' →
     parse_short_argument args itarg command rc
     = (itarg, unexpected name None TFlag BadString 0)) ∧
  (sv.size name ≤ len →
   codepoint name = None →
   parse_short_argument args itarg command rc
   = (itarg, unexpected name None TFlag BadString 0)).
Proof.
  intros Harg Hlen. split.
  - intros Hmany cps i fs rc' Hreads Hi Hfails Hfs Hbind.
    unfold parse_short_argument.
    rewrite (parse_short_argument_head _ _ name) by done. rewrite Hlen.
    cbn [value_of obind]. rewrite decide_True by done. f_equal.
    pose proof (reads_length _ _ _ _ Hreads) as Hcount.
    replace (sv.size name) with (length cps + S (sv.size name - length cps - 1))
      by lia.
    rewrite (multi_flags_reads command name 0 cps i Hreads fs _ rc rc') by done.
    cbn [multi_flags]. rewrite decide_True by done.
    rewrite substr_from by lia. cbn [value_of obind].
    destruct Hfails as [->|(len' & -> & Hcp)]; [done|].
    rewrite substr_upto by lia. cbn [value_of obind]. by rewrite Hcp.
  - intros Hone Hcp. unfold parse_short_argument.
    rewrite (parse_short_argument_head _ _ name) by done. rewrite Hlen.
    cbn [value_of obind]. rewrite decide_False by lia. by rewrite Hcp.
Qed.

End short_flags.

(** Runs of X6 on the demo grammar: [-v] binds [verbose] and the next token
    is parsed on its own. *)
Lemma parse_short_argument_flag_witness :
  parse_short_argument ["-v"; "x"] 0 demo.global demo.empty_result
  = (0, Ok (result.mkCommand "global" [result.Flag "verbose" 1])) ∧
  parse_command ["-v"; "--name=x"; "-v"] demo.global
  = Ok (result.mkCommand "global"
          [result.Flag "verbose" 2; result.Argument "name" "x"]).
Proof.
  split; [|reflexivity].
  destruct (parse_short_argument_flag ["-v"; "x"] 0 demo.global demo.empty_result
              "v" 118%N (demo.flag "verbose" 118%N)) as [-> _]; reflexivity.
Defined.

(** A run of X7 on the demo grammar: in [-a\xFF] the flag [a] is read and
    the byte [0xFF] starts no code point. *)
Lemma parse_short_argument_bad_string_witness :
  parse_short_argument [short_token ("a" +:+ demo.bad_byte)] 0 demo.global
    demo.empty_result
  = (0, unexpected ("a" +:+ demo.bad_byte) None TFlag BadString 0).
Proof.
  destruct (parse_short_argument_bad_string [short_token ("a" +:+ demo.bad_byte)] 0
              demo.global demo.empty_result ("a" +:+ demo.bad_byte) 1)
    as [Hcombined _]; [reflexivity..|].
  apply (Hcombined ltac:(cbv; lia) [97%N] 1 [demo.flag "all" 97%N]
           (result.mkCommand "global" [result.Flag "all" 1])).
  - eapply (reads_cons _ 0 1); [cbv; lia|reflexivity|lia|reflexivity|apply reads_nil].
  - cbv; lia.
  - by left.
  - reflexivity.
  - reflexivity.
Defined.

(** ** The errors [parse] can return *)

Section taxonomy.
Context `{Collaborators}.

Lemma known_binder e : from_binder e → known e.
Proof. intros He. left. by exists e. Qed.

Lemma known_offset n e : known e → known (offset_by n e).
Proof. done. Qed.

Lemma parse_long_argument_known args i command rc i' e :
  parse_long_argument args i command rc = (i', Fail e) → known e.
Proof.
  unfold parse_long_argument. intros [= <- He]. revert He.
  unfold deref. destruct (args !! i) as [arg|]; [|done]. cbn [value_of obind].
  pose proof (name_and_value_not_Fail arg) as Hnv.
  destruct (name_and_value arg) as [[name value]|e'|]; [|by destruct (Hnv e')|done].
  cbn [obind].
  destruct (find_if _ (flags command)) as [f|].
  - destruct value; [|eauto using known_binder, add_flag_Fail].
    intros [= <-]. right. constructor.
  - destruct (find_if _ (arguments command)) as [a|].
    + destruct value; [eauto using known_binder, add_argument_Fail|].
      intros [= <-]. right. constructor.
    + intros [= <-]. right. constructor.
Qed.

Lemma multi_flags_known fuel command name iName rc e :
  multi_flags fuel command name iName rc = Fail e → known e.
Proof.
  revert iName rc. induction fuel as [|fuel IH]; intros iName rc; simpl.
  - by destruct (decide _).
  - destruct (decide _); [|done].
    destruct (sv.substr name iName None) as [rest|]; [|done]. cbn [value_of obind].
    destruct (utf8_char_length rest) as [len|];
      [|intros [= <-]; right; constructor].
    destruct (sv.substr name iName (Some len)) as [char|]; [|done].
    cbn [value_of obind].
    destruct (codepoint char) as [cp|]; [|intros [= <-]; right; constructor].
    destruct (find_if _ _) as [f|]; [|intros [= <-]; right; constructor].
    destruct (add_flag rc f name) as [rc'|e'|] eqn:Hadd; cbn [obind]; [|..|done].
    + apply IH.
    + intros [= <-]. eauto using known_binder, add_flag_Fail.
Qed.

Lemma parse_short_argument_known args i command rc i' e :
  parse_short_argument args i command rc = (i', Fail e) → known e.
Proof.
  unfold parse_short_argument, deref.
  destruct (args !! i) as [arg|]; [|done]. cbn [value_of obind].
  destruct (sv.substr arg 1 None) as [name|]; [|done]. cbn [value_of obind].
  destruct (utf8_char_length name) as [len|]; [|done]. cbn [value_of obind].
  destruct (decide (len < sv.size name)).
  { intros [= <- He]. eauto using multi_flags_known. }
  destruct (codepoint name) as [cp|]; [|intros [= <- <-]; right; constructor].
  destruct (find_if _ (flags command)) as [f|].
  { intros [= <- He]. eauto using known_binder, add_flag_Fail. }
  destruct (find_if _ (arguments command)) as [a|];
    [|intros [= <- <-]; right; constructor].
  destruct (decide (S i = length args)); [intros [= <- <-]; right; constructor|].
  destruct (args !! S i) as [v|]; [|done]. cbn [value_of obind].
  intros [= <- He]. eauto using known_binder, add_argument_Fail.
Qed.

Lemma dispatch_known fuel args command i rc e :
  dispatch fuel args command i rc = Fail e → known e.
Proof.
  revert i rc. induction fuel as [|fuel IH]; intros i rc; cbn [dispatch].
  { by destruct (decide _). }
  destruct (decide _); [done|]. unfold deref.
  destruct (args !! i) as [token|]; [|done]. cbn [value_of obind].
  destruct (sv.starts_with token "---") eqn:Hdashes.
  { unfold unexpected. intros [= <-]. right. by constructor. }
  destruct (parse_parameter args i command rc token) as [i' o] eqn:Hp.
  destruct o as [rc'|e0|]; [apply IH| |done].
  intros [= <-]. apply known_offset. revert Hp. unfold parse_parameter.
  destruct (sv.starts_with token "--"); [apply parse_long_argument_known|].
  destruct (sv.starts_with token "-"); [apply parse_short_argument_known|].
  intros [= <- He]. eauto using known_binder, add_input_Fail.
Qed.

Lemma parse_command_known args command e :
  parse_command args command = Fail e → known e.
Proof.
  unfold parse_command.
  destruct (dispatch _ _ _ _ _) as [rc|e'|] eqn:Hloop; cbn [obind]; [|..|done].
  - unfold post_validation. destruct (decide _); [done|].
    intros [= <-]. right. constructor.
  - intros [= <-]. by eapply dispatch_known.
Qed.

(** X8. Every error [parse] returns is an error of the binder or one of the
    nine errors the parser builds.  A built error never has the type
    [Unknown] nor the codes [InvalidValue] and [OutOfBound]; its type is
    [Command] exactly for [NoGlobalCommand]; and it carries a value only with
    [FlagWithValue] or with the [UnknownParameter] of a long option. *)
Theorem parse_errors_are_known (p : Parser) (args : list string)
    (e : PositionnedError) :
  parse p args = Fail e →
  known e ∧
  (built (error e) →
   type (error e) ≠ TUnknown ∧
   code (error e) ≠ InvalidValue ∧ code (error e) ≠ OutOfBound ∧
   (type (error e) = TCommand ↔ code (error e) = NoGlobalCommand) ∧
   (is_Some (value (error e)) →
    code (error e) = FlagWithValue ∨
    code (error e) = UnknownParameter ∧ type (error e) = TArgument)).
Proof.
  intros Hparse. split.
  - destruct args as [|program rest]; [done|].
    rewrite parse_after_program in Hparse.
    destruct (find_command p (program :: rest)) as [[current base]|e'|] eqn:Hfind;
      cbn [obind] in Hparse; [|..|done].
    + destruct current as [command|].
      * destruct (parse_command _ command) as [parsed|e'|] eqn:Hcmd; [done| |done].
        injection Hparse as <-. apply known_offset. by eapply parse_command_known.
      * injection Hparse as <-. right. constructor.
    + injection Hparse as <-. apply find_command_Fail in Hfind as [-> _].
      right. constructor.
  - intros Hbuilt. inversion Hbuilt; simpl; repeat split; try done;
      try (intros [? [=]]); eauto.
Qed.

End taxonomy.

(** A run of X8: an unknown long option with a value. *)
Lemma parse_errors_are_known_witness :
  ∃ e, parse demo.parser ["prog"; "--nope=1"] = Fail e ∧ known e ∧
       code (error e) = UnknownParameter ∧ value (error e) = Some "1".
Proof.
  eexists. split; [vm_compute; reflexivity|]. split; [|split; reflexivity].
  eapply (parse_errors_are_known demo.parser ["prog"; "--nope=1"]).
  vm_compute. reflexivity.
Defined.

(** ** The loop on a slice *)

Section slices.
Context `{Collaborators}.

Lemma offset_by_offset_by n m e :
  offset_by n (offset_by m e) = offset_by (n + m) e.
Proof. unfold offset_by. simpl. f_equal. lia. Qed.

(** One token of the loop, seen in the vector and in the slice of the vector
    that starts [length pre] tokens later: same result, and the iterator
    stands [length pre] further. *)
Lemma parse_parameter_slice pre l i command rc token :
  l !! i = Some token →
  parse_parameter (pre ++ l) (length pre + i) command rc token
  = (length pre + (parse_parameter l i command rc token).1,
     (parse_parameter l i command rc token).2).
Proof.
  intros Htoken. pose proof (lookup_lt_Some _ _ _ Htoken) as Hi.
  assert (∀ j, (pre ++ l) !! (length pre + j) = l !! j) as Hlookup.
  { intros j. rewrite lookup_app_r by lia. f_equal. lia. }
  unfold parse_parameter.
  destruct (sv.starts_with token "--"); [|destruct (sv.starts_with token "-")]; [| |done].
  - unfold parse_long_argument, deref. by rewrite Hlookup.
  - unfold parse_short_argument, deref. rewrite Hlookup, Htoken.
    cbn [value_of obind].
    destruct (sv.substr token 1 None) as [name|]; [|done]. cbn [value_of obind].
    destruct (utf8_char_length name) as [len|]; [|done]. cbn [value_of obind].
    destruct (decide (len < sv.size name)); [done|].
    destruct (codepoint name) as [cp|]; [|done].
    destruct (find_if _ (flags command)) as [f|]; [done|].
    destruct (find_if _ (arguments command)) as [a|]; [|done].
    replace (S (length pre + i)) with (length pre + S i) by lia.
    rewrite Hlookup, length_app.
    destruct (decide (S i = length l)).
    + rewrite decide_True by lia. done.
    + rewrite decide_False by lia. done.
Qed.

(** The loop from index [length pre + i] of [pre ++ l] is the loop from index
    [i] of [l], with the positions of the errors moved by [length pre]. *)
Lemma dispatch_slice pre l command fuel i rc :
  i ≤ length l →
  dispatch fuel (pre ++ l) command (length pre + i) rc
  = moved (length pre) (dispatch fuel l command i rc).
Proof.
  revert i rc. induction fuel as [|fuel IH]; intros i rc Hi.
  { cbn [dispatch]. rewrite length_app.
    destruct (decide (i = length l)) as [->|Hne].
    - by rewrite decide_True.
    - by rewrite decide_False by lia. }
  destruct (decide (i = length l)) as [->|Hne].
  { rewrite <-length_app. by rewrite !dispatch_end. }
  destruct (l !! i) as [token|] eqn:Htoken;
    [|apply lookup_ge_None in Htoken; lia].
  assert ((pre ++ l) !! (length pre + i) = Some token) as Htoken'.
  { rewrite lookup_app_r by lia. rewrite <-Htoken. f_equal. lia. }
  rewrite (dispatch_turn _ _ _ _ _ _ Htoken), (dispatch_turn _ _ _ _ _ _ Htoken').
  destruct (sv.starts_with token "---").
  { unfold unexpected, moved, offset_by. simpl. do 2 f_equal. lia. }
  rewrite parse_parameter_slice by done.
  destruct (parse_parameter l i command rc token) as [i' o] eqn:Hp. simpl.
  apply parse_parameter_inv in Hp as [Hle Ho]; [|lia].
  destruct o as [rc'|e0|]; [|..|done].
  - replace (S (length pre + i')) with (length pre + S i') by lia.
    apply IH. lia.
  - simpl. by rewrite offset_by_offset_by.
Qed.

(** X9. The loop of [parse_command] composes: when it runs to its end on
    [pre], its run on [pre ++ l] is its run on [l] from the result reached on
    [pre], and an error of that run is reported [length pre] positions
    later. *)
Theorem dispatch_composes (command : config.Command) (pre l : list string)
    (rc rc1 : result.Command) :
  dispatch (length pre) pre command 0 rc = Ok rc1 →
  dispatch (length (pre ++ l)) (pre ++ l) command 0 rc
  = moved (length pre) (dispatch (length l) l command 0 rc1).
Proof.
  intros Hpre. apply (dispatch_app pre l) in Hpre; [|lia].
  rewrite Nat.sub_0_r in Hpre. rewrite Hpre.
  replace (length (pre ++ l) - length pre) with (length l)
    by (rewrite length_app; lia).
  pose proof (dispatch_slice pre l command (length l) 0 rc1 ltac:(lia)) as Hslice.
  by rewrite Nat.add_0_r in Hslice.
Qed.

(** The iterator of a run never goes back. *)
Lemma reaches_le args command i rc j rcj :
  reaches args command i rc j rcj → i ≤ j.
Proof.
  induction 1 as [i rc|i rc token i' rc' j rcj Htoken Hdashes Hp Hreach IH]; [done|].
  apply parse_parameter_advance in Hp as [->| ->]; lia.
Qed.

(** X10. The loop of [parse_command] ends: with the fuel [parse_command]
    gives it, its outcome is that of a finite run of successful turns whose
    iterator only grows.  A result is reached at the end of the vector; an
    error is raised at a token the run comes to; and the loop returns neither
    only when the routine of a token the run comes to returns neither, never
    because the turns go on. *)
Theorem dispatch_ends (args : list string) (command : config.Command)
    (rc : result.Command) :
  match dispatch (length args) args command 0 rc with
  | Ok rc' => reaches args command 0 rc (length args) rc'
  | Fail e => raised args command 0 rc e
  | Stuck =>
      ∃ j rcj token,
        reaches args command 0 rc j rcj ∧ 0 ≤ j < length args ∧
        args !! j = Some token ∧
        sv.starts_with token "---" = false ∧
        (parse_parameter args j command rcj token).2 = Stuck
  end ∧
  (∀ i rci j rcj, reaches args command i rci j rcj → i ≤ j).
Proof.
  split; [|intros i rci j rcj; apply reaches_le].
  assert (∀ fuel i rci,
    i ≤ length args → length args - i ≤ fuel →
    match dispatch fuel args command i rci with
    | Ok rc' => reaches args command i rci (length args) rc'
    | Fail e => raised args command i rci e
    | Stuck =>
        ∃ j rcj token,
          reaches args command i rci j rcj ∧ i ≤ j < length args ∧
          args !! j = Some token ∧
          sv.starts_with token "---" = false ∧
          (parse_parameter args j command rcj token).2 = Stuck
    end) as Hrun.
  { induction fuel as [|fuel IH]; intros i rci Hi Hfuel.
    { replace i with (length args) by lia. rewrite dispatch_end.
      apply reaches_here. }
    destruct (decide (i = length args)) as [->|Hne].
    { rewrite dispatch_end. apply reaches_here. }
    destruct (args !! i) as [token|] eqn:Htoken;
      [|apply lookup_ge_None in Htoken; lia].
    destruct (dispatch (S fuel) args command i rci) as [rc'|e|] eqn:Hloop.
    - rewrite (dispatch_turn _ _ _ _ _ _ Htoken) in Hloop.
      destruct (sv.starts_with token "---") eqn:Hdashes; [done|].
      destruct (parse_parameter args i command rci token) as [i' o] eqn:Hp.
      pose proof Hp as [Hle Ho]%parse_parameter_inv; [|lia].
      destruct o as [rc1| |]; [|done..].
      specialize (IH (S i') rc1 ltac:(lia) ltac:(lia)). rewrite Hloop in IH.
      by eapply reaches_turn.
    - by eapply dispatch_raised.
    - rewrite (dispatch_turn _ _ _ _ _ _ Htoken) in Hloop.
      destruct (sv.starts_with token "---") eqn:Hdashes; [done|].
      destruct (parse_parameter args i command rci token) as [i' o] eqn:Hp.
      pose proof Hp as [Hle Ho]%parse_parameter_inv; [|lia].
      destruct o as [rc1| |]; [|done|].
      + specialize (IH (S i') rc1 ltac:(lia) ltac:(lia)). rewrite Hloop in IH.
        destruct IH as (j & rcj & tok & Hreach & Hj & Htok & Hd & Hstuck).
        exists j, rcj, tok. split; [by eapply reaches_turn|].
        split; [lia|done].
      + exists i, rci, token. split; [apply reaches_here|].
        split; [lia|]. by rewrite Hp. }
  specialize (Hrun (length args) 0 rc ltac:(lia) ltac:(lia)).
  by destruct (dispatch _ _ _ _ _).
Qed.

End slices.

(** A run of X9 on the demo grammar: the unknown option is found at index [0]
    of the slice and at index [2] of the vector. *)
Lemma dispatch_composes_witness :
  dispatch 3 ["-v"; "--name=x"; "--nope"] demo.global 0 demo.empty_result
  = Fail (mkPositionnedError (mkError "nope" None TArgument UnknownParameter) 2) ∧
  dispatch 1 ["--nope"] demo.global 0
    (result.mkCommand "global" [result.Flag "verbose" 1; result.Argument "name" "x"])
  = Fail (mkPositionnedError (mkError "nope" None TArgument UnknownParameter) 0).
Proof.
  split; [|reflexivity].
  rewrite (dispatch_composes demo.global ["-v"; "--name=x"] ["--nope"]
             demo.empty_result
             (result.mkCommand "global"
                [result.Flag "verbose" 1; result.Argument "name" "x"]));
    reflexivity.
Defined.

(** ** The name of the result and the registration of commands *)

Section registration.
Context `{Collaborators}.

Lemma multi_flags_name fuel command name iName rc rc' :
  binder_keeps_name →
  multi_flags fuel command name iName rc = Ok rc' → result.name rc' = result.name rc.
Proof.
  intros (Hflag & _ & _). revert iName rc.
  induction fuel as [|fuel IH]; intros iName rc; simpl.
  - destruct (decide _); [done|]. by intros [= <-].
  - destruct (decide _); [|by intros [= <-]].
    destruct (sv.substr name iName None) as [rest|]; [|done]. cbn [value_of obind].
    destruct (utf8_char_length rest) as [len|]; [|done].
    destruct (sv.substr name iName (Some len)) as [char|]; [|done].
    cbn [value_of obind].
    destruct (codepoint char) as [cp|]; [|done].
    destruct (find_if _ _) as [f|]; [|done].
    destruct (add_flag rc f name) as [rc1| |] eqn:Hadd; cbn [obind]; [|done..].
    intros Hrest. apply IH in Hrest. apply Hflag in Hadd. congruence.
Qed.

Lemma parse_parameter_name args i command rc token i' rc' :
  binder_keeps_name →
  parse_parameter args i command rc token = (i', Ok rc') →
  result.name rc' = result.name rc.
Proof.
  intros Hbinder. pose proof Hbinder as (Hflag & Hargument & Hinput).
  unfold parse_parameter.
  destruct (sv.starts_with token "--"); [|destruct (sv.starts_with token "-")].
  - unfold parse_long_argument, deref. intros [= _ Hp]. revert Hp.
    destruct (args !! i) as [arg|]; [|done]. cbn [value_of obind].
    destruct (name_and_value arg) as [[name value]| |]; [|done..]. cbn [obind].
    destruct (find_if _ (flags command)) as [f|].
    + destruct value; [done|]. apply Hflag.
    + destruct (find_if _ (arguments command)) as [a|]; [|done].
      destruct value; [|done]. apply Hargument.
  - unfold parse_short_argument, deref.
    destruct (args !! i) as [arg|]; [|done]. cbn [value_of obind].
    destruct (sv.substr arg 1 None) as [name|]; [|done]. cbn [value_of obind].
    destruct (utf8_char_length name) as [len|]; [|done]. cbn [value_of obind].
    destruct (decide (len < sv.size name)).
    { intros [= _ Hp]. by eapply multi_flags_name. }
    destruct (codepoint name) as [cp|]; [|done].
    destruct (find_if _ (flags command)) as [f|].
    { intros [= _ Hp]. by eapply Hflag. }
    destruct (find_if _ (arguments command)) as [a|]; [|done].
    destruct (decide (S i = length args)); [done|].
    destruct (args !! S i) as [v|]; [|done]. cbn [value_of obind].
    intros [= _ Hadd]. by eapply Hargument.
  - intros [= _ Hp]. by eapply Hinput.
Qed.

Lemma dispatch_name fuel args command i rc rc' :
  binder_keeps_name →
  dispatch fuel args command i rc = Ok rc' → result.name rc' = result.name rc.
Proof.
  intros Hbinder. revert i rc. induction fuel as [|fuel IH]; intros i rc;
    cbn [dispatch].
  { destruct (decide _); [|done]. by intros [= <-]. }
  destruct (decide _); [by intros [= <-]|]. unfold deref.
  destruct (args !! i) as [token|]; [|done]. cbn [value_of obind].
  destruct (sv.starts_with token "---"); [done|].
  destruct (parse_parameter args i command rc token) as [i' o] eqn:Hp.
  destruct o as [rc1| |]; [|done..]. intros Hrest.
  apply IH in Hrest. apply parse_parameter_name in Hp; [|done]. congruence.
Qed.

(** X11. With a binder that leaves the name of the command result alone,
    the command of every result of [parse] has the long name of the command
    the command search selected. *)
Theorem parse_result_name (p : Parser) (args : list string) (r : Result) :
  binder_keeps_name →
  parse p args = Ok r →
  ∃ c itarg, find_command p args = Ok (Some c, itarg) ∧
             result.name (result.command r) = longname c.
Proof.
  intros Hbinder Hparse. destruct args as [|program rest]; [done|].
  rewrite parse_after_program in Hparse.
  destruct (find_command p (program :: rest)) as [[[c|] itarg]| |];
    cbn [obind] in Hparse; try done.
  exists c, itarg. split; [done|].
  unfold parse_command in Hparse.
  destruct (dispatch _ _ _ _ _) as [rc| |] eqn:Hloop; cbn [obind] in Hparse;
    try done.
  unfold post_validation in Hparse. destruct (decide _); [|done].
  injection Hparse as <-. simpl. by apply dispatch_name in Hloop.
Qed.

Lemma find_if_app_Some {A} (P : A → Prop) `{∀ x, Decision (P x)} (l l' : list A) x :
  find_if P l = Some x → find_if P (l ++ l') = Some x.
Proof.
  unfold find_if. destruct (list_find P l) as [[i y]|] eqn:Hfind; [|done].
  by rewrite (list_find_app_l _ _ _ _ _ Hfind).
Qed.

(** X12. Registering a further command, with [add_command] or with
    [make_command], changes nothing for the vectors whose first token already
    selects a registered command: the same command is selected and [parse]
    returns the same. *)
Theorem add_command_keeps_selection (p : Parser) (args : list string)
    (c0 : config.Command) :
  find_command p args = Ok (Some c0, 2) →
  (∀ c, find_command (add_command p c) args = Ok (Some c0, 2) ∧
        parse (add_command p c) args = parse p args) ∧
  (∀ longname, parse (make_command p longname) args = parse p args).
Proof.
  intros Hfind.
  assert (∀ c, find_command (add_command p c) args = Ok (Some c0, 2)) as Hadd.
  { intros c. revert Hfind. unfold find_command.
    destruct (decide (1 = length args)); [done|]. unfold deref.
    destruct (args !! 1) as [token|]; [|done]. cbn [value_of obind].
    destruct (sv.starts_with token "-"); [done|].
    destruct (utf8_char_length token) as [char_len|]; [|done].
    destruct (decide (char_len ≤ sv.size token)).
    - destruct (codepoint token) as [cp|]; [|done]. cbn [value_of obind].
      destruct (find_if _ (commands p)) as [found|] eqn:Hfound; [|done].
      intros [= ->]. simpl. by rewrite (find_if_app_Some _ _ _ _ Hfound).
    - cbn [obind].
      destruct (find_if _ (commands p)) as [found|] eqn:Hfound; [|done].
      intros [= ->]. simpl. by rewrite (find_if_app_Some _ _ _ _ Hfound). }
  assert (∀ c, parse (add_command p c) args = parse p args) as Hparse.
  { intros c. destruct args as [|program rest]; [done|].
    by rewrite !parse_after_program, Hadd, Hfind. }
  split; [by split|]. intros longname. apply Hparse.
Qed.

(** The command search selects no command only when no global command can
    be found. *)
Lemma find_command_None (p : Parser) (args : list string) itarg :
  find_command p args = Ok (None, itarg) → get_global_command p = None.
Proof.
  unfold find_command. destruct (decide _); [by intros [= -> _]|]. unfold deref.
  destruct (args !! 1) as [token|]; [|done]. cbn [value_of obind].
  destruct (sv.starts_with token "-"); [by intros [= -> _]|].
  destruct (utf8_char_length token) as [char_len|]; [|done].
  destruct (decide _).
  - destruct (codepoint token); [|done]. cbn [value_of obind].
    destruct (find_if _ _); [done|]. by intros [= -> _].
  - cbn [obind]. destruct (find_if _ _); [done|]. by intros [= -> _].
Qed.

(** X13. Once a global command is set with [set_global_command], it governs
    every vector that holds the program name alone or whose next token starts
    with a dash: the tokens after the program name are parsed for it; and no
    error of [parse] is [NoGlobalCommand], unless the binder returns that
    code. *)
Theorem set_global_command_governs (p : Parser) (g : config.Command)
    (program : string) (rest : list string) :
  ((rest = [] ∨ ∃ token, head rest = Some token ∧ sv.starts_with token "-" = true) →
   find_command (set_global_command p g) (program :: rest) = Ok (Some g, 1) ∧
   parse (set_global_command p g) (program :: rest)
   = match parse_command rest g with
     | Ok parsed => Ok (mkResult program parsed)
     | Fail e => Fail (offset_by 1 e)
     | Stuck => Stuck
     end) ∧
  (∀ e, parse (set_global_command p g) (program :: rest) = Fail e →
        (∃ e0, from_binder e0 ∧ error e = error e0) ∨
        code (error e) ≠ NoGlobalCommand).
Proof.
  split.
  - intros Hrest.
    assert (find_command (set_global_command p g) (program :: rest) = Ok (Some g, 1))
      as Hfind.
    { apply (find_command_global (set_global_command p g)).
      destruct Hrest as [->|(token & Htoken & Hdash)]; [by left|].
      right. exists token. split; [|done]. by destruct rest. }
    split; [done|]. rewrite parse_after_program. by rewrite Hfind.
  - intros e Hparse. rewrite parse_after_program in Hparse.
    destruct (find_command _ (program :: rest)) as [[current base]|e'|] eqn:Hfind;
      cbn [obind] in Hparse; [|..|done].
    + destruct current as [command|].
      * destruct (parse_command _ command) as [parsed|e'|] eqn:Hcmd; [done| |done].
        injection Hparse as <-. simpl.
        apply parse_command_Fail in Hcmd as Hshape.
        destruct Hshape as [Hloop|(_ & _ & ->)]; [|by right].
        destruct Hloop as [j token _ _|j e0 Hb _|j e0 [_ Hty] _]; simpl.
        -- by right.
        -- left. by exists e0.
        -- apply parse_command_known in Hcmd as [?|Hbuilt]; [by left|]. right.
           simpl in Hbuilt. inversion Hbuilt as [| Heq | | | | | | |];
             try done. rewrite <-Heq in Hty. simpl in Hty. by destruct Hty.
      * by apply find_command_None in Hfind.
    + injection Hparse as <-. apply find_command_Fail in Hfind as [-> _]. by right.
Qed.

End registration.

(** A run of X11 on the demo grammar. *)
Lemma parse_result_name_witness :
  ∃ r, parse demo.parser ["prog"; "s"] = Ok r ∧
       result.name (result.command r) = "status".
Proof.
  eexists. split; [vm_compute; reflexivity|].
  destruct (parse_result_name demo.parser ["prog"; "s"]
              (mkResult "prog" (result.mkCommand "status" []))) as (c & i & _ & _).
  - repeat split; by intros ???? [= <-] || by intros ????? [= <-].
  - vm_compute. reflexivity.
  - reflexivity.
Defined.

(** A run of X12: [status] stays selected by [s] after a second command with
    the short name [s] is registered. *)
Lemma add_command_keeps_selection_witness :
  find_command
    (add_command demo.parser (config.mkCommand (mkCommon "sync" (Some 115%N)) [] []))
    ["prog"; "s"]
  = Ok (Some demo.status, 2).
Proof.
  destruct (add_command_keeps_selection demo.parser ["prog"; "s"] demo.status)
    as [Hadd _]; [reflexivity|].
  apply Hadd.
Defined.

(** Runs of X13: with [build] set as global command, the program name alone
    is parsed for [build], and the unknown option of a vector is the error,
    not a missing global command. *)
Lemma set_global_command_governs_witness :
  parse (set_global_command demo.parser_without_global demo.build) ["prog"]
  = Ok (mkResult "prog" (result.mkCommand "build" [])) ∧
  ∃ e, parse (set_global_command demo.parser_without_global demo.build)
         ["prog"; "--nope"] = Fail e ∧
       code (error e) ≠ NoGlobalCommand.
Proof.
  split.
  - destruct (set_global_command_governs demo.parser_without_global demo.build
                "prog" []) as [Hgoverns _].
    destruct Hgoverns as [_ ->]; [by left|reflexivity].
  - eexists. split; [vm_compute; reflexivity|]. discriminate.
Defined.

(** ** Registered names *)

Section names.
Context `{Collaborators}.

(** X14. A global command set by long name is the first registered command
    with that long name; it governs the vector that holds the program name
    alone. *)
Theorem global_command_by_name (p : Parser) (name program : string)
    (before after : list config.Command) (c : config.Command) :
  global_command p = Some (inr name) →
  commands p = before ++ c :: after →
  (∀ c' : config.Command, c' ∈ before → longname c' ≠ name) →
  longname c = name →
  get_global_command p = Some c ∧
  find_command p [program] = Ok (Some c, 1).
Proof.
  intros Hglobal Hcommands Hbefore Hc.
  assert (get_global_command p = Some c) as Hget.
  { unfold get_global_command. rewrite Hglobal, Hcommands.
    apply (find_if_first (λ command : config.Command, name = longname command));
      [|done].
    intros c' Hc' Heq. by apply (Hbefore c'). }
  split; [done|]. rewrite <-Hget. apply find_command_global. by left.
Qed.

Lemma find_if_app_None {A} (P : A → Prop) `{∀ x, Decision (P x)} (l : list A) x :
  find_if P l = None → find_if P (l ++ [x]) = if decide (P x) then Some x else None.
Proof.
  intros Hnone. destruct (decide (P x)) as [HP|HP].
  - apply find_if_first; [|done]. exact (proj1 (find_if_None P l) Hnone).
  - apply find_if_None. intros y [Hy|Hy%list_elem_of_singleton]%elem_of_app.
    + by apply (proj1 (find_if_None P l) Hnone).
    + by subst.
Qed.

(** [parse_long_argument] on a token [--name] or [--name=value]. *)
Lemma parse_long_argument_long_token args i command rc nm v :
  args !! i = Some (long_token nm v) →
  sv.find nm "="%char = None →
  parse_long_argument args i command rc
  = (i,
     match find_if (λ f : config.Flag, long_finder nm f) (flags command) with
     | Some found_flag =>
         match v with
         | Some _ => unexpected nm v TFlag FlagWithValue 0
         | None => add_flag rc found_flag nm
         end
     | None =>
         match find_if (λ a : config.Argument, long_finder nm a) (arguments command) with
         | Some found_argument =>
             match v with
             | None => unexpected nm v TArgument MissingValue 0
             | Some x => add_argument rc found_argument nm x
             end
         | None => unexpected nm v TArgument UnknownParameter 0
         end
     end).
Proof.
  intros Harg Hnm. unfold parse_long_argument, deref. rewrite Harg.
  cbn [value_of obind]. by rewrite name_and_value_long_token.
Qed.

(** X15. Registering on a command.  A long option that names a registered
    flag is resolved the same after a further flag or argument is registered.
    A flag registered under the long name of an argument, when no flag had
    that name, takes the name over: [--name] then binds the flag and
    [--name=value] fails [FlagWithValue]. *)
Theorem registration_and_long_options (args : list string) (i : nat)
    (command : config.Command) (rc : result.Command)
    (nm : string) (v : option string) :
  args !! i = Some (long_token nm v) →
  sv.find nm "="%char = None →
  (is_Some (find_if (λ f : config.Flag, long_finder nm f) (flags command)) →
   ∀ f' a',
     parse_long_argument args i (Command_add_flag command f') rc
     = parse_long_argument args i command rc ∧
     parse_long_argument args i (Command_add_argument command a') rc
     = parse_long_argument args i command rc) ∧
  (find_if (λ f : config.Flag, long_finder nm f) (flags command) = None →
   ∀ f' : config.Flag, longname f' = nm →
     parse_long_argument args i (Command_add_flag command f') rc
     = (i, match v with
           | Some _ => unexpected nm v TFlag FlagWithValue 0
           | None => add_flag rc f' nm
           end)).
Proof.
  intros Harg Hnm. split.
  - intros [f Hf] f' a'.
    rewrite !(parse_long_argument_long_token _ _ _ _ nm v) by done. simpl.
    by rewrite (find_if_app_Some _ _ _ _ Hf), Hf.
  - intros Hnone f' Hf'.
    rewrite (parse_long_argument_long_token _ _ _ _ nm v) by done. simpl.
    rewrite find_if_app_None by done. by rewrite decide_True.
Qed.

End names.

(** A run of X14: the global command named [status]. *)
Lemma global_command_by_name_witness :
  find_command (mkParser (Some (inr "status")) [demo.build; demo.status]) ["prog"]
  = Ok (Some demo.status, 1).
Proof.
  destruct (global_command_by_name
              (mkParser (Some (inr "status")) [demo.build; demo.status])
              "status" "prog" [demo.build] [] demo.status) as [_ Hfind];
    [reflexivity|reflexivity| |reflexivity|exact Hfind].
  intros c' Hc'. apply list_elem_of_In in Hc'. simpl in Hc'.
  by destruct Hc' as [<-|[]].
Defined.

(** A run of X15: once a flag [name] is registered on the demo command,
    [--name=x] no longer binds the argument [name]. *)
Lemma registration_and_long_options_witness :
  parse_long_argument ["--name=x"] 0 demo.global demo.empty_result
  = (0, Ok (result.mkCommand "global" [result.Argument "name" "x"])) ∧
  parse_long_argument ["--name=x"] 0 (Command_make_flag demo.global "name")
    demo.empty_result
  = (0, unexpected "name" (Some "x") TFlag FlagWithValue 0).
Proof.
  split; [reflexivity|].
  destruct (registration_and_long_options ["--name=x"] 0 demo.global
              demo.empty_result "name" (Some "x")) as [_ Hshadow];
    [reflexivity|reflexivity|].
  apply (Hshadow eq_refl (mkFlag (mkCommon "name" None)) eq_refl).
Defined.

(** ** When [parse] returns *)

Section returns.
Context `{Collaborators}.
Import sv_facts.

Lemma starts_with_size s p : sv.starts_with s p = true → sv.size p ≤ sv.size s.
Proof.
  revert s. induction p as [|b p IH]; intros s; unfold sv.size; simpl; [lia|].
  destruct s as [|a s]; [done|]. destruct (decide (a = b)); [|done].
  intros Hp%IH. unfold sv.size in Hp. simpl. lia.
Qed.

Lemma find_lt s c n : sv.find s c = Some n → n < sv.size s.
Proof.
  revert n. induction s as [|a s IH]; intros n; simpl; [done|].
  unfold sv.size. simpl. destruct (decide (a = c)); [intros [= <-]; lia|].
  destruct (sv.find s c) as [m|]; [|done]. intros [= <-].
  specialize (IH m eq_refl). unfold sv.size in IH. lia.
Qed.

Lemma name_and_value_returns arg :
  sv.starts_with arg "--" = true → name_and_value arg ≠ Stuck.
Proof.
  intros Hsize%starts_with_size. unfold sv.size in Hsize at 1. simpl in Hsize.
  unfold name_and_value.
  destruct (sv.find arg "="%char) as [equal_pos|] eqn:Hfind.
  - apply find_lt in Hfind. rewrite substr_from by lia. cbn [value_of obind].
    unfold sv.substr. by rewrite decide_True by lia.
  - by rewrite substr_from by lia.
Qed.

Lemma multi_flags_returns fuel command name iName rc :
  (∀ s len, utf8_char_length s = Some len → 0 < len) →
  binder_returns →
  sv.size name - iName ≤ fuel →
  multi_flags fuel command name iName rc ≠ Stuck.
Proof.
  intros Hpos (Hflag & _ & _). revert iName rc.
  induction fuel as [|fuel IH]; intros iName rc Hfuel; cbn [multi_flags].
  { by rewrite decide_False by lia. }
  destruct (decide _); [|done].
  rewrite substr_from by lia. cbn [value_of obind].
  destruct (utf8_char_length _) as [len|] eqn:Hlen; [|done].
  apply Hpos in Hlen. rewrite substr_upto by lia. cbn [value_of obind].
  destruct (codepoint _) as [cp|]; [|done].
  destruct (find_if _ _) as [f|]; [|done].
  pose proof (Hflag rc f name).
  destruct (add_flag rc f name) as [rc'| |]; cbn [obind]; [|done..].
  apply IH. lia.
Qed.

Lemma parse_parameter_returns args i command rc token :
  (∀ s len, utf8_char_length s = Some len → 0 < len) →
  binder_returns →
  short_names_decode args →
  args !! i = Some token →
  (parse_parameter args i command rc token).2 ≠ Stuck.
Proof.
  intros Hpos Hbinder Hshort Htoken. pose proof Hbinder as (Hflag & Hargument & Hinput).
  pose proof (lookup_lt_Some _ _ _ Htoken) as Hi.
  unfold parse_parameter.
  destruct (sv.starts_with token "--") eqn:H2;
    [|destruct (sv.starts_with token "-") eqn:H1].
  - unfold parse_long_argument, deref. rewrite Htoken. cbn [value_of obind snd].
    pose proof (name_and_value_returns token H2) as Hnv.
    pose proof (name_and_value_not_Fail token) as Hnf.
    destruct (name_and_value token) as [[name value]|e|]; [|by destruct (Hnf e)|done].
    cbn [obind].
    destruct (find_if _ (flags command)) as [f|].
    + destruct value; [done|apply Hflag].
    + destruct (find_if _ (arguments command)) as [a|]; [|done].
      destruct value; [apply Hargument|done].
  - unfold parse_short_argument, deref. rewrite Htoken. cbn [value_of obind].
    pose proof (starts_with_size _ _ H1) as Hsize.
    unfold sv.size in Hsize at 1. simpl in Hsize.
    rewrite substr_from by lia. cbn [value_of obind].
    destruct (Hshort i token Htoken H1) as [len Hlen]. rewrite Hlen.
    cbn [value_of obind].
    destruct (decide (len < sv.size (sv.drop 1 token))).
    { cbn [snd]. apply multi_flags_returns; [done|done|lia]. }
    destruct (codepoint _) as [cp|]; [|done].
    destruct (find_if _ (flags command)) as [f|]; [apply Hflag|].
    destruct (find_if _ (arguments command)) as [a|]; [|done].
    destruct (decide (S i = length args)); [done|]. cbn [snd].
    destruct (args !! S i) as [v|] eqn:Hv; [|apply lookup_ge_None in Hv; lia].
    cbn [value_of obind]. apply Hargument.
  - cbn [snd]. apply Hinput.
Qed.

Lemma dispatch_returns fuel args command i rc :
  (∀ s len, utf8_char_length s = Some len → 0 < len) →
  binder_returns →
  short_names_decode args →
  i ≤ length args → length args - i ≤ fuel →
  dispatch fuel args command i rc ≠ Stuck.
Proof.
  intros Hpos Hbinder Hshort. revert i rc.
  induction fuel as [|fuel IH]; intros i rc Hi Hfuel.
  { replace i with (length args) by lia. by rewrite dispatch_end. }
  destruct (decide (i = length args)) as [->|Hne]; [by rewrite dispatch_end|].
  destruct (args !! i) as [token|] eqn:Htoken;
    [|apply lookup_ge_None in Htoken; lia].
  rewrite (dispatch_turn _ _ _ _ _ _ Htoken).
  destruct (sv.starts_with token "---"); [done|].
  pose proof (parse_parameter_returns args i command rc token
                Hpos Hbinder Hshort Htoken) as Hreturns.
  destruct (parse_parameter args i command rc token) as [i' o] eqn:Hp.
  apply parse_parameter_inv in Hp as [Hle Ho]; [|lia].
  destruct o as [rc'|e0|]; [|done..]. apply IH; lia.
Qed.

(** X16. [parse] returns a result or an error on every non-empty vector,
    under four conditions that name what the code leaves unguarded or to its
    collaborators: the decoder gives positive lengths; it gives the code point
    of every view whose first length it gives; every token that starts with a
    dash has, after the dash, a first code point of decodable length; and the
    binder returns. *)
Theorem parse_returns (p : Parser) (program : string) (rest : list string) :
  (∀ s len, utf8_char_length s = Some len → 0 < len) →
  (∀ s len, utf8_char_length s = Some len → is_Some (codepoint s)) →
  binder_returns →
  short_names_decode rest →
  parse p (program :: rest) ≠ Stuck.
Proof.
  intros Hpos Hagree Hbinder Hshort. rewrite parse_after_program.
  destruct (find_command p (program :: rest)) as [[current base]|e|] eqn:Hfind;
    cbn [obind].
  - pose proof Hfind as [Hbase _]%find_command_iterator; [|simpl; lia].
    destruct current as [command|]; [|done].
    assert (parse_command (drop base (program :: rest)) command ≠ Stuck) as Hcmd.
    { unfold parse_command.
      assert (dispatch (length (drop base (program :: rest)))
                (drop base (program :: rest)) command 0
                (result.mkCommand (longname command) []) ≠ Stuck) as Hloop.
      { apply dispatch_returns; [done|done| |lia|lia].
        intros i token Htoken. rewrite lookup_drop in Htoken.
        destruct base as [|base]; [lia|]. simpl in Htoken.
        by apply (Hshort (base + i)). }
      destruct (dispatch _ _ _ _ _) as [rc| |]; cbn [obind]; [|done..].
      unfold post_validation. by destruct (decide _). }
    by destruct (parse_command _ command).
  - done.
  - exfalso. revert Hfind. unfold find_command.
    destruct (decide (1 = length (program :: rest))); [done|]. unfold deref.
    destruct ((program :: rest) !! 1) as [token|] eqn:Htoken.
    2:{ apply lookup_ge_None in Htoken. simpl in *. lia. }
    cbn [value_of obind]. destruct (sv.starts_with token "-"); [done|].
    destruct (utf8_char_length token) as [char_len|] eqn:Hlen; [|done].
    destruct (Hagree _ _ Hlen) as [cp Hcp]. rewrite Hcp.
    destruct (decide _); cbn [value_of obind]; by destruct (find_if _ _).
Qed.

End returns.

(** The decoder of the specification gives positive lengths, and the code
    point wherever it gives the length. *)
Lemma spec_decoder_lengths (s : string) (len : nat) :
  utf8_char_length s = Some len → 0 < len ∧ is_Some (codepoint s).
Proof.
  simpl. destruct (spec_model.decode_first s) as [[len' cp]|] eqn:Hdecode; [|done].
  intros [= <-]. split; [|by eexists].
  destruct s as [|a s]; [done|]. cbn [spec_model.decode_first] in Hdecode.
  destruct (spec_model.lead_length (N_of_ascii a)) as [l|] eqn:Hlead; [|done].
  cbn in Hdecode.
  destruct (spec_model.continuation _ _ _); [|done]. injection Hdecode as <- _.
  unfold spec_model.lead_length in Hlead.
  repeat case_match; simplify_eq; lia.
Qed.

Lemma spec_binder_returns : binder_returns.
Proof. repeat split; by intros. Qed.

(** A run of X16 on the demo grammar. *)
Lemma parse_returns_witness :
  parse demo.parser ["prog"; "-v"; "--name=x"; "foo"] ≠ Stuck.
Proof.
  apply (parse_returns demo.parser "prog" ["-v"; "--name=x"; "foo"]).
  - intros s len Hlen. by apply spec_decoder_lengths in Hlen as [? _].
  - intros s len Hlen. by apply spec_decoder_lengths in Hlen as [_ ?].
  - exact spec_binder_returns.
  - intros i token Htoken _.
    destruct i as [|[|[|i]]]; simpl in Htoken; try discriminate;
      injection Htoken as <-; by eexists.
Defined.

(** ** Positional inputs and the split of a long option *)

Section inputs.
Context `{Collaborators}.
Import sv_facts.

(** X17. A vector without any token that starts with a dash is a sequence of
    positional inputs: the loop of [parse_command] hands them to the binder in
    the order of the vector, stops at the first one the binder refuses, and
    reports that error at the index of its token. *)
Theorem dispatch_positional (command : config.Command) (args : list string)
    (rc : result.Command) :
  Forall (λ token, sv.starts_with token "-" = false) args →
  dispatch (length args) args command 0 rc = bind_inputs command args rc.
Proof.
  intros Hargs. revert rc. induction Hargs as [|token rest Hdash Hrest IH]; intros rc.
  { done. }
  destruct (positional_token token Hdash) as [H3 H2].
  cbn [length bind_inputs].
  rewrite (dispatch_turn _ _ _ _ _ token) by done.
  rewrite H3. unfold parse_parameter. rewrite H2, Hdash.
  destruct (add_input rc command token) as [rc'| |]; cbn [moved obind]; [|done..].
  rewrite <-IH.
  apply (dispatch_slice [token] rest command (length rest) 0 rc'). lia.
Qed.

(** X18. The split of a long option is a round trip: [--name] and
    [--name=value], with a name free of ['='], split into that name and that
    value; and whatever a token that starts with two dashes splits into, the
    token is [--name] or [--name=value] for the name and the value found, and
    the name has no ['=']. *)
Theorem name_and_value_round_trip (arg nm : string) (v : option string) :
  (sv.find nm "="%char = None → name_and_value (long_token nm v) = Ok (nm, v)) ∧
  (sv.starts_with arg "--" = true →
   name_and_value arg = Ok (nm, v) →
   arg = long_token nm v ∧ sv.find nm "="%char = None).
Proof.
  split; [apply name_and_value_long_token|].
  intros (nm' & v' & -> & Hnm')%long_token_exists.
  rewrite name_and_value_long_token by done. by intros [= <- <-].
Qed.

End inputs.

(** A run of X17 on the demo grammar. *)
Lemma dispatch_positional_witness :
  dispatch 2 ["foo"; "bar"] demo.global 0 demo.empty_result
  = Ok (result.mkCommand "global"
          [result.Argument "" "foo"; result.Argument "" "bar"]).
Proof.
  rewrite (dispatch_positional demo.global ["foo"; "bar"] demo.empty_result);
    [reflexivity|].
  repeat constructor.
Defined.
